(** * obrms: heavy-atom RMSD between chemically identical structures

    A shallow embedding of [tools/obrms.cpp] (Open Babel).  The tool reads a
    reference and a test molecule, normalises both ([processMol]), enumerates
    the atom correspondences between them with the isomorphism mapper and
    reports the smallest root-mean-square deviation over the correspondences
    ([Matcher::computeRMSD], [MapRMSDFunctor]).

    Conventions of the embedding:
    - a C++ [double] is a binary64 primitive float ([PrimFloat.float]), with the
      IEEE operations of the kernel; [HUGE_VAL] is [infinity];
    - an [unsigned] count is a [nat]; its conversion to [double] goes through
      [of_uint63], which is exact for every count that fits an [unsigned]
      ([fits_unsigned], assumed where the converted value matters);
    - a [double a[N*3]] coordinate array is a list of [N] points;
    - objects held by reference (the two molecules inside the functor) are
      threaded through the calls, so that what a call does to them shows in
      its result;
    - the library routines that [obrms.cpp] calls but does not define are
      either parameters of the development ([qtrfit], [rotate_coords]) or
      definitions marked "Modelled from the spec". *)

From Stdlib Require Import ZArith List Lia Bool Floats Uint63.
From stdpp Require Import list.
Import ListNotations.

(** ** IEEE binary64 arithmetic *)

Module Double.

(** [HUGE_VAL] of <cmath>: positive infinity on an IEEE platform. *)
Definition HUGE_VAL : float := infinity.

Definition SQUARE (x : float) : float := (x * x)%float.

(** Conversion of an [unsigned] to [double], as in [rave[c] /= N]. *)
Definition of_unsigned (N : nat) : float :=
  of_uint63 (Uint63.of_Z (Z.of_nat N)).

(** An [unsigned] holds values below [2^32]. *)
Definition fits_unsigned (N : nat) : Prop := (Z.of_nat N < 2 ^ 32)%Z.

(** Classification on the specification side of a float. *)
Definition sf_finite (s : spec_float) : bool :=
  match s with
  | S754_zero _ | S754_finite _ _ _ => true
  | _ => false
  end.

(** The sign bit is clear, or the value is not a number. *)
Definition sf_pos (s : spec_float) : bool :=
  match s with
  | S754_zero false | S754_finite false _ _ | S754_infinity false | S754_nan => true
  | _ => false
  end.

Definition sf_is_nan (s : spec_float) : bool :=
  match s with S754_nan => true | _ => false end.

End Double.

Import Double.

(** ** Molecules *)

Record vector3 : Type := mkvector3 { vx : float; vy : float; vz : float }.

Definition vzero : vector3 := mkvector3 0 0 0.

Definition vadd (a b : vector3) : vector3 :=
  mkvector3 (vx a + vx b) (vy a + vy b) (vz a + vz b).

Definition vsub (a b : vector3) : vector3 :=
  mkvector3 (vx a - vx b) (vy a - vy b) (vz a - vz b).

Definition vdiv (a : vector3) (d : float) : vector3 :=
  mkvector3 (vx a / d) (vy a / d) (vz a / d).

Definition vfinite (a : vector3) : bool :=
  is_finite (vx a) && is_finite (vy a) && is_finite (vz a).

(** An atom object.  [GetId] stands for the identity of the object (bonds
    point to their end atoms); the index of an atom is its position in the
    molecule's atom vector. *)
Record OBAtom : Type := mkOBAtom {
  GetId : nat;
  GetAtomicNum : nat;
  GetVector : vector3;
  atom_IsAromatic : bool;
  atom_IsInRing : bool
}.

Record OBBond : Type := mkOBBond {
  GetBeginAtomId : nat;
  GetEndAtomId : nat;
  GetBondOrder : nat;
  bond_IsAromatic : bool;
  bond_IsInRing : bool
}.

Record OBMol : Type := mkOBMol {
  atoms : list OBAtom;
  bonds : list OBBond;
  HasHybridizationPerceived : bool;
  HasRingAtomsAndBondsPerceived : bool;
  HasAromaticPerceived : bool
}.

Definition NumAtoms (mol : OBMol) : nat := length (atoms mol).

Definition IsHydrogen (a : OBAtom) : bool := GetAtomicNum a =? 1.

(** [OBMol::GetAtom]: atom indices are 1-based; out of range gives NULL. *)
Definition GetAtom (mol : OBMol) (idx : nat) : option OBAtom :=
  match idx with
  | O => None
  | S i => nth_error (atoms mol) i
  end.

(** Flag setters of [OBAtom] and [OBBond] used by [processMol]. *)
Definition atom_UnsetAromatic (a : OBAtom) : OBAtom :=
  mkOBAtom (GetId a) (GetAtomicNum a) (GetVector a) false (atom_IsInRing a).

Definition atom_SetInRing (a : OBAtom) : OBAtom :=
  mkOBAtom (GetId a) (GetAtomicNum a) (GetVector a) (atom_IsAromatic a) true.

Definition bond_UnsetAromatic (b : OBBond) : OBBond :=
  mkOBBond (GetBeginAtomId b) (GetEndAtomId b) (GetBondOrder b) false (bond_IsInRing b).

Definition bond_SetBondOrder (order : nat) (b : OBBond) : OBBond :=
  mkOBBond (GetBeginAtomId b) (GetEndAtomId b) order (bond_IsAromatic b) (bond_IsInRing b).

Definition bond_SetInRing (b : OBBond) : OBBond :=
  mkOBBond (GetBeginAtomId b) (GetEndAtomId b) (GetBondOrder b) (bond_IsAromatic b) true.

Definition SetHybridizationPerceived (mol : OBMol) : OBMol :=
  mkOBMol (atoms mol) (bonds mol) true
          (HasRingAtomsAndBondsPerceived mol) (HasAromaticPerceived mol).

Definition SetRingAtomsAndBondsPerceived (mol : OBMol) : OBMol :=
  mkOBMol (atoms mol) (bonds mol) (HasHybridizationPerceived mol)
          true (HasAromaticPerceived mol).

Definition SetAromaticPerceived (mol : OBMol) : OBMol :=
  mkOBMol (atoms mol) (bonds mol) (HasHybridizationPerceived mol)
          (HasRingAtomsAndBondsPerceived mol) true.

(** The identities of the hydrogen atoms of a molecule. *)
Definition hydrogen_ids (mol : OBMol) : list nat :=
  map GetId (List.filter IsHydrogen (atoms mol)).

Definition touches (ids : list nat) (b : OBBond) : bool :=
  existsb (Nat.eqb (GetBeginAtomId b)) ids || existsb (Nat.eqb (GetEndAtomId b)) ids.

(** Modelled from the spec: [OBMol::DeleteHydrogens] is library code outside
    [obrms.cpp].  "Removes all atoms tagged as hydrogen, removing their
    incident bonds."  The remaining atoms keep their order. *)
Definition DeleteHydrogens (mol : OBMol) : OBMol :=
  mkOBMol (List.filter (fun a => negb (IsHydrogen a)) (atoms mol))
          (List.filter (fun b => negb (touches (hydrogen_ids mol) b)) (bonds mol))
          (HasHybridizationPerceived mol)
          (HasRingAtomsAndBondsPerceived mol)
          (HasAromaticPerceived mol).

(** The two loops of [processMol], over [BeginAtoms()..EndAtoms()] and
    [BeginBonds()..EndBonds()]. *)
Definition for_each_atom (body : OBAtom -> OBAtom) (mol : OBMol) : OBMol :=
  mkOBMol (map body (atoms mol)) (bonds mol) (HasHybridizationPerceived mol)
          (HasRingAtomsAndBondsPerceived mol) (HasAromaticPerceived mol).

Definition for_each_bond (body : OBBond -> OBBond) (mol : OBMol) : OBMol :=
  mkOBMol (atoms mol) (map body (bonds mol)) (HasHybridizationPerceived mol)
          (HasRingAtomsAndBondsPerceived mol) (HasAromaticPerceived mol).

(** The body of the loop over the atoms: [a->UnsetAromatic(); a->SetInRing()]. *)
Definition atom_body (a : OBAtom) : OBAtom := atom_SetInRing (atom_UnsetAromatic a).

(** The body of the loop over the bonds: [b->UnsetAromatic();
    b->SetBondOrder(1); b->SetInRing()]. *)
Definition bond_body (b : OBBond) : OBBond :=
  bond_SetInRing (bond_SetBondOrder 1 (bond_UnsetAromatic b)).

(** [processMol]: preprocess a molecule into a standardized state for heavy
    atom rmsd computation. *)
Definition processMol (mol : OBMol) : OBMol :=
  let mol := DeleteHydrogens mol in
  let mol := for_each_atom atom_body mol in
  let mol := for_each_bond bond_body mol in
  SetAromaticPerceived (SetRingAtomsAndBondsPerceived (SetHybridizationPerceived mol)).

(** The molecule with no atom. *)
Definition empty_mol : OBMol := mkOBMol [] [] false false false.

(** ** The isomorphism mapper *)

(** [OBIsomorphismMapper::Mapping]: pairs (query atom index, queried atom
    index); the mapper's indices are zero-based. *)
Definition Mapping : Type := list (nat * nat).

(** Modelled from the spec: [OBQuery] and [CompileMoleculeQuery] are library
    code outside [obrms.cpp].  "A normalized description of the reference
    graph's topology (adjacency, element labels)": the element of every
    atom, by index, and the bonds as pairs of atom indices. *)
Record OBQuery : Type := mkOBQuery {
  q_elements : list nat;
  q_bonds : list (nat * nat)
}.

Fixpoint index_of_id (id : nat) (l : list OBAtom) : option nat :=
  match l with
  | [] => None
  | a :: l' =>
      if GetId a =? id then Some 0
      else option_map S (index_of_id id l')
  end.

Definition bond_indices (mol : OBMol) (b : OBBond) : list (nat * nat) :=
  match index_of_id (GetBeginAtomId b) (atoms mol),
        index_of_id (GetEndAtomId b) (atoms mol) with
  | Some i, Some j => [(i, j)]
  | _, _ => []
  end.

Definition CompileMoleculeQuery (mol : OBMol) : OBQuery :=
  mkOBQuery (map GetAtomicNum (atoms mol)) (flat_map (bond_indices mol) (bonds mol)).

Definition connects (b : OBBond) (x y : nat) : bool :=
  ((GetBeginAtomId b =? x) && (GetEndAtomId b =? y))
  || ((GetBeginAtomId b =? y) && (GetEndAtomId b =? x)).

(** The atoms at indices [j] and [j'] of [mol] are bonded. *)
Definition bonded (mol : OBMol) (j j' : nat) : bool :=
  match nth_error (atoms mol) j, nth_error (atoms mol) j' with
  | Some a, Some a' => existsb (fun b => connects b (GetId a) (GetId a')) (bonds mol)
  | _, _ => false
  end.

(** The test atom a mapping assigns to query atom [i]. *)
Definition image (m : Mapping) (i : nat) : option nat :=
  option_map snd (List.find (fun p => fst p =? i) m).

Definition atoms_match (q : OBQuery) (t : OBMol) (m : Mapping) : bool :=
  forallb
    (fun p =>
       match nth_error (q_elements q) (fst p), nth_error (atoms t) (snd p) with
       | Some e, Some a => e =? GetAtomicNum a
       | _, _ => false
       end) m.

Definition bonds_match (q : OBQuery) (t : OBMol) (m : Mapping) : bool :=
  forallb
    (fun b =>
       match image m (fst b), image m (snd b) with
       | Some j, Some j' => bonded t j j'
       | _, _ => false
       end) (q_bonds q).

(** Every way of pairing the query atoms [0..n-1], in order, with the test
    atoms [0..n-1]. *)
Definition candidates (n : nat) : list Mapping :=
  map (combine (seq 0 n)) (permutations (seq 0 n)).

(** Modelled from the spec: the search of [OBIsomorphismMapper] is library
    code outside [obrms.cpp].  "Produces every distinct adjacency-preserving,
    element-compatible bijection between reference and test heavy atoms";
    "if the reference and test graphs are not isomorphic (different atom
    counts, ... or no consistent bijection), visit is never called". *)
Definition isomorphisms (q : OBQuery) (t : OBMol) : list Mapping :=
  if length (q_elements q) =? NumAtoms t
  then List.filter (fun m => atoms_match q t m && bonds_match q t m)
                   (candidates (NumAtoms t))
  else [].

(** The contract of the search, stated without the enumeration: a mapping
    pairs every query atom, in order, with a test atom, uses every test atom
    once, pairs equal elements, and sends every query bond to a test bond. *)
Definition IsIsomorphism (q : OBQuery) (t : OBMol) (m : Mapping) : Prop :=
  map fst m = seq 0 (length (q_elements q))
  /\ Permutation (seq 0 (NumAtoms t)) (map snd m)
  /\ (forall i j, In (i, j) m ->
        exists e a, nth_error (q_elements q) i = Some e
                    /\ nth_error (atoms t) j = Some a
                    /\ e = GetAtomicNum a)
  /\ (forall i i', In (i, i') (q_bonds q) ->
        exists j j', In (i, j) m /\ In (i', j') m /\ bonded t j j' = true).

(** Modelled from the spec: [OBIsomorphismMapper::MapGeneric] is library code
    outside [obrms.cpp].  "Calls visit once per Mapping found; if visit
    returns a truthy stop signal, enumeration terminates early; otherwise it
    continues until the search space is exhausted."  The functor is any
    object with a call operator ([OBIsomorphismMapper::Functor]); a call may
    fail (an assertion of the functor fails), which ends the run.  The result
    is the functor after the run, with the mappings it was called on. *)
Section MapGeneric.
Context {Functor : Type}.
Variable call : Functor -> Mapping -> option (bool * Functor).

Fixpoint visit_each (functor : Functor) (maps : list Mapping)
  : option (Functor * list Mapping) :=
  match maps with
  | [] => Some (functor, [])
  | map :: rest =>
      match call functor map with
      | None => None
      | Some (true, functor') => Some (functor', [map])
      | Some (false, functor') =>
          match visit_each functor' rest with
          | Some (functor'', calls) => Some (functor'', map :: calls)
          | None => None
          end
      end
  end.

Definition MapGeneric (query : OBQuery) (functor : Functor) (queried : OBMol)
  : option (Functor * list Mapping) :=
  visit_each functor (isomorphisms query queried).
End MapGeneric.

(** ** The RMSD functor and the matcher *)

(** A [double a[N*3]] array of [N] points. *)
Definition coords : Type := list vector3.

(** A [double m[3][3]] matrix, by rows. *)
Definition matrix3 : Type := (vector3 * vector3 * vector3)%type.

Definition dist_sq (p q : vector3) : float :=
  (SQUARE (vx p - vx q) + SQUARE (vy p - vy q) + SQUARE (vz p - vz q))%float.

(** Modelled from the spec: [calc_rms] is library code outside [obrms.cpp].
    "RMSD = sqrt( mean over points of squared Euclidean distance between
    corresponding reference and test points )"; "RMSD of an empty set is
    defined as 0 by convention ... (guard N >= 1 before the mean)". *)
Definition calc_rms (r f : coords) (N : nat) : float :=
  if N =? 0 then 0%float
  else
    let d2 := fold_left (fun d2 pq => (d2 + dist_sq (fst pq) (snd pq))%float)
                        (combine r f) 0%float in
    PrimFloat.sqrt (d2 / of_unsigned N)%float.

(** Lines 117-135 of [operator()]: the average of the points of an array,
    [rave[c] += coord[3*i+c]] over the points and then [rave[c] /= N]. *)
Definition average (c : coords) (N : nat) : vector3 :=
  vdiv (fold_left vadd c vzero) (of_unsigned N).

(** The same average with the guard the spec asks for ("guard N >= 1 before
    the mean"): with no point the accumulator is left as initialised. *)
Definition guarded_average (c : coords) (N : nat) : vector3 :=
  if N =? 0 then vzero else average c N.

(** Lines 137-144: [coord[3*i+c] -= ave[c]]. *)
Definition center (c : coords) (ave : vector3) : coords :=
  map (fun p => vsub p ave) c.

(** [MapRMSDFunctor]: the two molecules (held by reference), the best RMSD
    so far and the minimize flag. *)
Record MapRMSDFunctor : Type := mkMapRMSDFunctor {
  ref : OBMol;
  test : OBMol;
  bestRMSD : float;
  minimize : bool
}.

(** The constructor: [bestRMSD(HUGE_VAL)]. *)
Definition MapRMSDFunctor_new (r t : OBMol) (min : bool) : MapRMSDFunctor :=
  mkMapRMSDFunctor r t HUGE_VAL min.

Definition getRMSD (f : MapRMSDFunctor) : float := bestRMSD f.

(** Lines 98-110: the coordinates of the paired atoms, in the order of the
    mapping.  [None] is the failure of [assert(ratom && tatom)]. *)
Fixpoint gather (r t : OBMol) (map : Mapping) : option (coords * coords) :=
  match map with
  | [] => Some ([], [])
  | (first, second) :: rest =>
      match GetAtom r (first + 1), GetAtom t (second + 1) with
      | Some ratom, Some tatom =>
          match gather r t rest with
          | Some (refcoord, testcoord) =>
              Some (GetVector ratom :: refcoord, GetVector tatom :: testcoord)
          | None => None
          end
      | _, _ => None
      end
  end.

(** The matcher: the reference molecule and the query compiled from it (the
    mapper is [OBIsomorphismMapper::GetInstance(query)]). *)
Record Matcher : Type := mkMatcher {
  matcher_ref : OBMol;
  query : OBQuery
}.

Definition Matcher_new (mol : OBMol) : Matcher :=
  mkMatcher mol (CompileMoleculeQuery mol).

(** What a call of [computeRMSD] leaves behind: the value returned, the two
    molecules, and the mappings the functor was called on. *)
Record Outcome : Type := mkOutcome {
  rmsd : float;
  ref_after : OBMol;
  test_after : OBMol;
  invoked : list Mapping
}.

(** The functor's state when [computeRMSD] returns [funct.getRMSD()]. *)
Definition outcome_of (funct : MapRMSDFunctor) (calls : list Mapping) : Outcome :=
  mkOutcome (getRMSD funct) (ref funct) (test funct) calls.

Section Evaluator.
(** [qtrfit] and [rotate_coords] are library routines outside [obrms.cpp]:
    the rotation fitted to two centred arrays, and its application to an
    array.  They are parameters here. *)
Variable qtrfit : coords -> coords -> nat -> matrix3.
Variable rotate_coords : coords -> matrix3 -> nat -> coords.

(** Lines 112-148: the [if (minimize)] block, on the local arrays. *)
Definition fit (refcoord testcoord : coords) (N : nat) : coords * coords :=
  let rave := average refcoord N in
  let tave := average testcoord N in
  let refcoord := center refcoord rave in
  let testcoord := center testcoord tave in
  let rmatrix := qtrfit refcoord testcoord N in
  (refcoord, rotate_coords testcoord rmatrix N).

(** Lines 94-150: the RMSD of one mapping. *)
Definition mapping_rmsd (r t : OBMol) (min : bool) (map : Mapping) : option float :=
  let N := length map in
  match gather r t map with
  | None => None
  | Some (refcoord, testcoord) =>
      let '(refcoord, testcoord) :=
        if min then fit refcoord testcoord N else (refcoord, testcoord) in
      Some (calc_rms refcoord testcoord N)
  end.

(** [MapRMSDFunctor::operator()]: lines 152-155 keep the smaller of the new
    RMSD and the best so far, and return false ("check all possible
    mappings"). *)
Definition call (f : MapRMSDFunctor) (map : Mapping)
  : option (bool * MapRMSDFunctor) :=
  match mapping_rmsd (ref f) (test f) (minimize f) map with
  | None => None
  | Some rmsd =>
      Some (false,
            mkMapRMSDFunctor (ref f) (test f)
              (if (rmsd <? bestRMSD f)%float then rmsd else bestRMSD f)
              (minimize f))
  end.

(** [Matcher::computeRMSD], with the state it leaves. *)
Definition computeRMSD_run (this : Matcher) (test : OBMol) (minimize : bool)
  : option Outcome :=
  let funct := MapRMSDFunctor_new (matcher_ref this) test minimize in
  match MapGeneric call (query this) funct test with
  | None => None
  | Some (funct, calls) =>
      Some (outcome_of funct calls)
  end.

(** [Matcher::computeRMSD]: the value returned. *)
Definition computeRMSD (this : Matcher) (test : OBMol) (minimize : bool)
  : option float :=
  option_map rmsd (computeRMSD_run this test minimize).

(** The body of the loops of [main] for one pair (lines 315-325): both
    molecules are normalised, the matcher is built from the reference. *)
Definition compareOne (molref moltest : OBMol) (minimize : bool) : option float :=
  let molref := processMol molref in
  let matcher := Matcher_new molref in
  let moltest := processMol moltest in
  computeRMSD matcher moltest minimize.
End Evaluator.

(** Lines 152-153 on their own: the smaller of the best value so far and
    a new one, and the best value after a sequence of new ones. *)
Definition keep_smaller (best rmsd : float) : float :=
  if (rmsd <? best)%float then rmsd else best.

Definition running_min (best : float) (values : list float) : float :=
  fold_left keep_smaller values best.

(** At least one atom of the molecule is not a hydrogen. *)
Definition has_heavy_atom (mol : OBMol) : Prop :=
  exists a, In a (atoms mol) /\ IsHydrogen a = false.

(** Every coordinate of every atom is a finite number. *)
Definition finite_coordinates (mol : OBMol) : Prop :=
  List.Forall (fun a => vfinite (GetVector a) = true) (atoms mol).

(** ** Concrete molecules and routines used in the examples *)

(** A rotation fit that always answers the identity matrix, and the product
    of a matrix with every point of an array.  They instantiate the two
    parameters in the closed examples below.  The examples of the first
    parts do not reach them with a point to act on: they take the
    [minimize = false] path, visit the empty mapping only, or visit no
    mapping at all.  The examples of the last part, on minimize against no
    minimize, do: there the test molecule is the reference itself or the
    reference moved along an axis, for which the identity is the optimal
    rotation. *)
Definition identity_fit : coords -> coords -> nat -> matrix3 :=
  fun _ _ _ => (mkvector3 1 0 0, mkvector3 0 1 0, mkvector3 0 0 1).

Definition dot (a b : vector3) : float :=
  (vx a * vx b + vy a * vy b + vz a * vz b)%float.

Definition matrix_apply : coords -> matrix3 -> nat -> coords :=
  fun c m _ =>
    let '(r0, r1, r2) := m in
    map (fun p => mkvector3 (dot r0 p) (dot r1 p) (dot r2 p)) c.

Definition atom_at (id element : nat) (x y z : float) : OBAtom :=
  mkOBAtom id element (mkvector3 x y z) false false.

Definition carbon (id : nat) (x y z : float) : OBAtom := atom_at id 6 x y z.

Definition single_bond (a b : nat) : OBBond := mkOBBond a b 1 false false.

Definition mol_of (l : list OBAtom) (b : list OBBond) : OBMol :=
  mkOBMol l b false false false.

(** Two bonded atoms A(0,0,z)-B(1,0,z) of the given elements. *)
Definition two_atoms (eA eB : nat) (z : float) : OBMol :=
  mol_of [atom_at 0 eA 0 0 z; atom_at 1 eB 1 0 z] [single_bond 0 1].

(** Two bonded carbon atoms A(0,0,0)-B(1,0,0), and the copy translated by
    z = 1. *)
Definition AB_ref : OBMol := two_atoms 6 6 0.

Definition AB_test : OBMol := two_atoms 6 6 1.

(** A molecule of two bonded hydrogens: it is not [Empty()], and has no
    atom left after normalisation. *)
Definition H2 : OBMol :=
  mol_of [mkOBAtom 0 1 (mkvector3 0 0 0) false false;
          mkOBAtom 1 1 (mkvector3 0.75 0 0) false false] [single_bond 0 1].

(** One atom at the origin. *)
Definition one_atom : OBMol := mol_of [carbon 0 0 0 0] [].

(** One atom whose x coordinate is not a number. *)
Definition nan_atom : OBMol := mol_of [carbon 0 nan 0 0] [].

(** One atom far out on the x axis, on either side: the coordinates are
    finite, the square of their difference is not. *)
Definition far_right : OBMol := mol_of [carbon 0 0x1p+600 0 0] [].

Definition far_left : OBMol := mol_of [carbon 0 (-0x1p+600) 0 0] [].

(** ** Facts of binary64 arithmetic *)

Module DoubleFacts.

Lemma SFltb_trans x y z :
  SFltb x y = true -> SFltb y z = true -> SFltb x z = true.
Proof.
  unfold SFltb.
  destruct x as [[]|[]| |[] mx ex], y as [[]|[]| |[] my ey], z as [[]|[]| |[] mz ez];
    simpl; try congruence;
    change (Pos.compare_cont Eq) with Pos.compare;
    destruct (Z.compare_spec ex ey), (Z.compare_spec ey ez); try congruence;
    destruct (Z.compare_spec ex ez); try lia; try congruence; subst;
    destruct (Pos.compare_spec mx my), (Pos.compare_spec my mz); simpl; try congruence;
    destruct (Pos.compare_spec mx mz); simpl; try lia; try congruence.
Qed.

Lemma SFcompare_refl s :
  SFcompare s s = if sf_is_nan s then None else Some Eq.
Proof.
  destruct s as [[]|[]| |[] m e]; simpl; try reflexivity;
    rewrite Z.compare_refl; change (Pos.compare_cont Eq) with Pos.compare;
    rewrite Pos.compare_refl; reflexivity.
Qed.

Lemma ltb_trans x y z :
  (x <? y)%float = true -> (y <? z)%float = true -> (x <? z)%float = true.
Proof. rewrite !FloatAxioms.ltb_spec. apply SFltb_trans. Qed.

Lemma ltb_irrefl x : (x <? x)%float = false.
Proof.
  rewrite FloatAxioms.ltb_spec. unfold SFltb. rewrite SFcompare_refl.
  now destruct (sf_is_nan _).
Qed.

Lemma is_nan_spec x : is_nan x = sf_is_nan (Prim2SF x).
Proof.
  unfold is_nan. rewrite FloatAxioms.eqb_spec. unfold SFeqb.
  rewrite SFcompare_refl. now destruct (sf_is_nan _).
Qed.

Lemma is_finite_spec x : is_finite x = sf_finite (Prim2SF x).
Proof.
  unfold is_finite, is_infinity.
  rewrite is_nan_spec, FloatAxioms.eqb_spec, FloatAxioms.abs_spec.
  destruct (Prim2SF x) as [[]|[]| |[] m e]; reflexivity.
Qed.

(** A finite value minus itself is [+0]. *)
Lemma sub_diag x : is_finite x = true -> (x - x)%float = 0%float.
Proof.
  rewrite is_finite_spec. intros H. apply Prim2SF_inj.
  rewrite FloatAxioms.sub_spec.
  destruct (Prim2SF x) as [[]|[]| |s m e]; try discriminate; try reflexivity.
  unfold SF64sub, SFsub. rewrite Z.sub_diag. reflexivity.
Qed.

(** *** Signs *)

Lemma binary_round_aux_sign s m e l :
  match binary_round_aux prec emax s m e l with
  | S754_zero s' | S754_infinity s' | S754_finite s' _ _ => s' = s
  | S754_nan => True
  end.
Proof.
  unfold binary_round_aux.
  destruct (shr_fexp prec emax m e l) as [mrs' e'].
  destruct (shr_fexp prec emax _ e' loc_Exact) as [mrs'' e''].
  destruct (shr_m mrs''); auto. destruct (Z.leb _ _); auto.
Qed.

Lemma binary_round_aux_pos m e l :
  sf_pos (binary_round_aux prec emax false m e l) = true.
Proof.
  pose proof (binary_round_aux_sign false m e l) as H.
  destruct (binary_round_aux prec emax false m e l); simpl; subst; auto.
Qed.

Lemma binary_round_pos m e : sf_pos (binary_round prec emax false m e) = true.
Proof.
  unfold binary_round. destruct (shl_align _ _ _). apply binary_round_aux_pos.
Qed.

Lemma SFmul_self_pos s : sf_pos (SF64mul s s) = true.
Proof.
  destruct s as [[]|[]| |[] m e]; try reflexivity; apply binary_round_aux_pos.
Qed.

Lemma SFadd_pos a b :
  sf_pos a = true -> sf_pos b = true -> sf_pos (SF64add a b) = true.
Proof.
  destruct a as [[]|[]| |[] ma ea], b as [[]|[]| |[] mb eb];
    try discriminate; try reflexivity.
  intros _ _. unfold SF64add, SFadd. simpl cond_Zopp. apply binary_round_pos.
Qed.

Lemma SFdiv_pos a b :
  sf_pos a = true -> sf_pos b = true -> sf_pos (SF64div a b) = true.
Proof.
  destruct a as [[]|[]| |[] ma ea], b as [[]|[]| |[] mb eb];
    try discriminate; try reflexivity.
  intros _ _. unfold SF64div, SFdiv.
  destruct (SFdiv_core_binary _ _ _ _ _ _) as [[mz ez] lz].
  apply binary_round_aux_pos.
Qed.

Lemma SFsqrt_pos a : sf_pos a = true -> sf_pos (SF64sqrt a) = true.
Proof.
  destruct a as [[]|[]| |[] ma ea]; try discriminate; try reflexivity.
  intros _. unfold SF64sqrt, SFsqrt.
  destruct (SFsqrt_core_binary _ _ _ _) as [[mz ez] lz].
  apply binary_round_aux_pos.
Qed.

Lemma SQUARE_pos x : sf_pos (Prim2SF (SQUARE x)) = true.
Proof. unfold SQUARE. rewrite FloatAxioms.mul_spec. apply SFmul_self_pos. Qed.

Lemma add_pos x y :
  sf_pos (Prim2SF x) = true -> sf_pos (Prim2SF y) = true ->
  sf_pos (Prim2SF (x + y)) = true.
Proof. rewrite FloatAxioms.add_spec. apply SFadd_pos. Qed.

Lemma of_unsigned_sign N : sf_pos (Prim2SF (of_unsigned N)) = true.
Proof.
  unfold of_unsigned. rewrite FloatAxioms.of_uint63_spec.
  pose proof (Uint63.to_Z_bounded (Uint63.of_Z (Z.of_nat N))) as [H _].
  destruct (Uint63.to_Z _) as [|p|p]; try lia; simpl.
  - reflexivity.
  - apply binary_round_pos.
Qed.

(** A value with a clear sign that is below another value is finite and
    not below zero. *)
Lemma pos_ltb_finite x y :
  sf_pos (Prim2SF x) = true -> (x <? y)%float = true ->
  is_finite x = true /\ (0 <=? x)%float = true.
Proof.
  rewrite is_finite_spec, FloatAxioms.ltb_spec, FloatAxioms.leb_spec.
  change (Prim2SF 0) with (S754_zero false).
  unfold SFltb, SFleb.
  destruct (Prim2SF x) as [[]|[]| |[] m e]; try discriminate;
    destruct (Prim2SF y) as [[]|[]| |[] m' e']; simpl; try discriminate; auto.
Qed.

(** A number with a clear sign that zero is not below is [+0]. *)
Lemma pos_not_above_zero x :
  sf_pos (Prim2SF x) = true -> is_nan x = false ->
  (0 <? x)%float = false -> x = 0%float.
Proof.
  rewrite is_nan_spec, FloatAxioms.ltb_spec. intros Hp Hn Hz.
  apply Prim2SF_inj. change (Prim2SF 0) with (S754_zero false) in *.
  unfold SFltb in Hz.
  destruct (Prim2SF x) as [[]|[]| |[] m e]; simpl in *; congruence.
Qed.

Lemma ltb_not_nan x y : (x <? y)%float = true -> is_nan x = false.
Proof.
  rewrite is_nan_spec, FloatAxioms.ltb_spec. unfold SFltb.
  destruct (Prim2SF x) as [[]|[]| |[] m e]; simpl; congruence.
Qed.

Lemma finite_ltb_infinity x : is_finite x = true -> (x <? infinity)%float = true.
Proof.
  rewrite is_finite_spec, FloatAxioms.ltb_spec.
  change (Prim2SF infinity) with (S754_infinity false). unfold SFltb.
  destruct (Prim2SF x) as [[]|[]| |[] m e]; simpl; congruence.
Qed.

(** *** The conversion of a count *)

Lemma digits2_pos_iter p k :
  digits2_pos (Pos.iter xO p k) = (digits2_pos p + k)%positive.
Proof.
  induction k using Pos.peano_ind.
  - simpl. lia.
  - rewrite Pos.iter_succ. simpl. rewrite IHk. lia.
Qed.

Lemma digits2_pos_lower p : (2 ^ (Zpos (digits2_pos p) - 1) <= Zpos p)%Z.
Proof.
  assert (step : forall d : positive,
             (2 ^ (Zpos (Pos.succ d) - 1) = 2 * 2 ^ (Zpos d - 1))%Z).
  { intros d. rewrite Pos2Z.inj_succ.
    replace (Z.succ (Zpos d) - 1)%Z with (Z.succ (Zpos d - 1))%Z by lia.
    apply Z.pow_succ_r. lia. }
  induction p as [p IH|p IH|]; simpl digits2_pos.
  - rewrite step. lia.
  - rewrite step. lia.
  - simpl. lia.
Qed.

Lemma binary_normalize_small p :
  (Zpos p < 2 ^ 32)%Z ->
  exists m e, binary_normalize prec emax (Zpos p) 0 false = S754_finite false m e.
Proof.
  intros Hp.
  assert (Hd : (Zpos (digits2_pos p) <= 32)%Z).
  { destruct (Z_le_gt_dec (Zpos (digits2_pos p)) 32) as [|Hgt]; [assumption|].
    pose proof (digits2_pos_lower p) as Hl.
    assert (2 ^ 32 <= 2 ^ (Zpos (digits2_pos p) - 1))%Z
      by (apply Z.pow_le_mono_r; lia).
    lia. }
  unfold binary_normalize, binary_round, shl_align.
  set (d := digits2_pos p) in *.
  assert (Hf : fexp prec emax (Zpos d + 0) = (Zpos d - 53)%Z).
  { unfold fexp, SpecFloat.emin, prec, emax. lia. }
  rewrite Hf.
  destruct (Zpos d - 53 - 0)%Z as [|q|q] eqn:Hq; try lia.
  exists (Pos.iter xO p q), (Zpos d - 53)%Z.
  unfold binary_round_aux, shr_fexp. simpl Zdigits2.
  rewrite digits2_pos_iter. fold d.
  assert (Hf2 : (fexp prec emax (Zpos (d + q) + (Zpos d - 53)) - (Zpos d - 53) = 0)%Z).
  { unfold fexp, SpecFloat.emin, prec, emax. lia. }
  rewrite Hf2. simpl. rewrite digits2_pos_iter. fold d. rewrite Hf2. simpl.
  replace (Z.leb _ _) with true; [reflexivity|].
  symmetry. apply Z.leb_le. unfold emax, prec. lia.
Qed.

(** A count between 1 and [2^32 - 1] converts to a positive finite number. *)
Lemma of_unsigned_finite N :
  (0 < N)%nat -> fits_unsigned N ->
  exists m e, Prim2SF (of_unsigned N) = S754_finite false m e.
Proof.
  unfold fits_unsigned. intros H0 H32.
  unfold of_unsigned. rewrite FloatAxioms.of_uint63_spec, Uint63.of_Z_spec.
  rewrite Z.mod_small.
  2:{ split; [lia|]. eapply Z.lt_trans; [exact H32|]. reflexivity. }
  destruct (Z.of_nat N) as [|p|p] eqn:E; try lia.
  now apply binary_normalize_small.
Qed.

Lemma zero_div_count N :
  (0 < N)%nat -> fits_unsigned N -> (0 / of_unsigned N)%float = 0%float.
Proof.
  intros H0 H32. destruct (of_unsigned_finite N H0 H32) as (m & e & E).
  apply Prim2SF_inj. rewrite FloatAxioms.div_spec, E. reflexivity.
Qed.

End DoubleFacts.

(** ** Normalisation *)

Module NormalFacts.

Lemma processMol_unfold mol :
  processMol mol =
  mkOBMol (map atom_body (List.filter (fun a => negb (IsHydrogen a)) (atoms mol)))
          (map bond_body
               (List.filter (fun b => negb (touches (hydrogen_ids mol) b)) (bonds mol)))
          true true true.
Proof. reflexivity. Qed.

Lemma filter_heavy_norm l :
  List.filter (fun a => negb (IsHydrogen a)) (map atom_body l) =
  map atom_body (List.filter (fun a => negb (IsHydrogen a)) l).
Proof.
  induction l as [|a l IH]; simpl; [reflexivity|].
  change (IsHydrogen (atom_body a)) with (IsHydrogen a).
  destruct (IsHydrogen a); simpl; now rewrite IH.
Qed.

Lemma filter_heavy_idem l :
  List.filter (fun a => negb (IsHydrogen a))
              (List.filter (fun a => negb (IsHydrogen a)) l) =
  List.filter (fun a => negb (IsHydrogen a)) l.
Proof.
  induction l as [|a l IH]; simpl; [reflexivity|].
  destruct (IsHydrogen a) eqn:E; simpl; rewrite ?E; simpl; now rewrite IH.
Qed.

Lemma no_hydrogen_left l :
  List.filter IsHydrogen
              (map atom_body (List.filter (fun a => negb (IsHydrogen a)) l)) = [].
Proof.
  induction l as [|a l IH]; simpl; [reflexivity|].
  destruct (IsHydrogen a) eqn:E; simpl; [assumption|].
  change (IsHydrogen (atom_body a)) with (IsHydrogen a). now rewrite E.
Qed.

Lemma filter_all {A} (l : list A) : List.filter (fun _ => true) l = l.
Proof. induction l; simpl; congruence. Qed.

Lemma map_idem {A} (f : A -> A) (l : list A) :
  (forall a, f (f a) = f a) -> map f (map f l) = map f l.
Proof. intros H. rewrite map_map. apply map_ext. exact H. Qed.

Lemma hydrogen_ids_processMol mol : hydrogen_ids (processMol mol) = [].
Proof.
  unfold hydrogen_ids. rewrite processMol_unfold. cbn [atoms].
  now rewrite no_hydrogen_left.
Qed.

End NormalFacts.

Import NormalFacts.

(** C6. After [processMol] every remaining atom is a heavy atom that is not
    aromatic and is marked in-ring; every remaining bond is not aromatic, is
    marked in-ring, has order 1 and touches no hydrogen of the input.  The
    remaining atoms are the heavy atoms of the input, in order, with their
    identity, element and coordinates; the remaining bonds are the bonds of
    the input that touch no hydrogen, with their end atoms.  [processMol] is
    a total function: on the empty graph it returns the empty graph. *)
Theorem processMol_normalizes (mol : OBMol) :
  Forall (fun a => IsHydrogen a = false
                   /\ atom_IsAromatic a = false /\ atom_IsInRing a = true)
         (atoms (processMol mol))
  /\ Forall (fun b => bond_IsAromatic b = false /\ bond_IsInRing b = true
                      /\ GetBondOrder b = 1
                      /\ touches (hydrogen_ids mol) b = false)
            (bonds (processMol mol))
  /\ map (fun a => (GetId a, GetAtomicNum a, GetVector a)) (atoms (processMol mol))
     = map (fun a => (GetId a, GetAtomicNum a, GetVector a))
           (List.filter (fun a => negb (IsHydrogen a)) (atoms mol))
  /\ map (fun b => (GetBeginAtomId b, GetEndAtomId b)) (bonds (processMol mol))
     = map (fun b => (GetBeginAtomId b, GetEndAtomId b))
           (List.filter (fun b => negb (touches (hydrogen_ids mol) b)) (bonds mol))
  /\ atoms (processMol empty_mol) = [] /\ bonds (processMol empty_mol) = [].
Proof.
  rewrite processMol_unfold. cbn [atoms bonds].
  repeat split.
  - apply List.Forall_forall. intros a Ha.
    apply in_map_iff in Ha as (a0 & <- & Ha0).
    apply filter_In in Ha0 as [_ Hh].
    repeat split. apply negb_true_iff in Hh. exact Hh.
  - apply List.Forall_forall. intros b Hb.
    apply in_map_iff in Hb as (b0 & <- & Hb0).
    apply filter_In in Hb0 as [_ Ht].
    repeat split. apply negb_true_iff in Ht. exact Ht.
  - rewrite map_map. reflexivity.
  - rewrite map_map. reflexivity.
Qed.

(** C7. Normalisation is idempotent: a second [processMol] changes nothing
    (atoms, bonds, flags, bond orders and coordinates). *)
Theorem processMol_twice (mol : OBMol) :
  processMol (processMol mol) = processMol mol.
Proof.
  rewrite (processMol_unfold (processMol mol)), hydrogen_ids_processMol.
  rewrite (List.filter_ext (fun b => negb (touches [] b)) (fun _ => true))
    by reflexivity.
  rewrite filter_all, (processMol_unfold mol). cbn [atoms bonds].
  rewrite filter_heavy_norm, filter_heavy_idem.
  rewrite !map_idem by reflexivity. reflexivity.
Qed.

(** ** The enumeration of the mapper meets its contract *)

Module MapperFacts.

Lemma map_fst_combine {A B} (l : list A) (l' : list B) :
  length l = length l' -> map fst (combine l l') = l.
Proof.
  revert l'. induction l as [|a l IH]; intros [|b l'] H; simpl in *;
    try discriminate; [reflexivity|]. f_equal. apply IH. lia.
Qed.

Lemma map_snd_combine {A B} (l : list A) (l' : list B) :
  length l = length l' -> map snd (combine l l') = l'.
Proof.
  revert l'. induction l as [|a l IH]; intros [|b l'] H; simpl in *;
    try discriminate; [reflexivity|]. f_equal. apply IH. lia.
Qed.

Lemma combine_fst_snd {A B} (m : list (A * B)) :
  combine (map fst m) (map snd m) = m.
Proof. induction m as [|[a b] m IH]; simpl; congruence. Qed.

Lemma In_combine_diag {A} (l : list A) x y :
  In (x, y) (combine l l) -> x = y /\ In x l.
Proof.
  induction l as [|a l IH]; simpl; [tauto|].
  intros [E|H]; [inversion E; subst; auto|]. destruct (IH H); auto.
Qed.

Lemma In_diag_combine {A} (l : list A) x : In x l -> In (x, x) (combine l l).
Proof. induction l as [|a l IH]; simpl; [tauto|]. intros [->|H]; auto. Qed.

Lemma candidates_spec n m :
  In m (candidates n)
  <-> map fst m = seq 0 n /\ Permutation (seq 0 n) (map snd m).
Proof.
  unfold candidates. rewrite in_map_iff. split.
  - intros (p & <- & Hp).
    apply list_elem_of_In, permutations_Permutation in Hp.
    pose proof (Permutation_length Hp) as Hl.
    rewrite map_fst_combine, map_snd_combine by exact Hl. auto.
  - intros [Hf Hs]. exists (map snd m). split.
    + rewrite <- Hf. apply combine_fst_snd.
    + apply list_elem_of_In, permutations_Permutation. exact Hs.
Qed.

Lemma image_In m i j : image m i = Some j -> In (i, j) m.
Proof.
  unfold image. destruct (List.find _ m) as [[i0 j0]|] eqn:E; [|discriminate].
  simpl. intros [= <-]. apply find_some in E as [Hin Hi].
  apply Nat.eqb_eq in Hi. simpl in Hi. now subst.
Qed.

Lemma In_image m i j : List.NoDup (map fst m) -> In (i, j) m -> image m i = Some j.
Proof.
  unfold image. induction m as [|[i0 j0] m IH]; simpl; [tauto|].
  intros Hnd Hin. inversion Hnd as [|? ? Hni Hnd']; subst.
  destruct Hin as [E|Hin].
  - inversion E; subst. now rewrite Nat.eqb_refl.
  - destruct (Nat.eqb_spec i0 i) as [->|Hne].
    + exfalso. apply Hni. apply in_map_iff. now exists (i, j).
    + now apply IH.
Qed.

Lemma atoms_match_spec q t m :
  atoms_match q t m = true
  <-> forall i j, In (i, j) m ->
        exists e a, nth_error (q_elements q) i = Some e
                    /\ nth_error (atoms t) j = Some a /\ e = GetAtomicNum a.
Proof.
  unfold atoms_match. rewrite forallb_forall. split.
  - intros H i j Hin. specialize (H _ Hin). simpl in H.
    destruct (nth_error (q_elements q) i) as [e|]; [|discriminate].
    destruct (nth_error (atoms t) j) as [a|]; [|discriminate].
    apply Nat.eqb_eq in H. eauto.
  - intros H [i j] Hin. simpl. destruct (H _ _ Hin) as (e & a & -> & -> & ->).
    apply Nat.eqb_refl.
Qed.

Lemma bonds_match_spec q t m :
  List.NoDup (map fst m) ->
  bonds_match q t m = true
  <-> forall i i', In (i, i') (q_bonds q) ->
        exists j j', In (i, j) m /\ In (i', j') m /\ bonded t j j' = true.
Proof.
  intros Hnd. unfold bonds_match. rewrite forallb_forall. split.
  - intros H i i' Hin. specialize (H _ Hin). simpl in H.
    destruct (image m i) as [j|] eqn:Ei; [|discriminate].
    destruct (image m i') as [j'|] eqn:Ei'; [|discriminate].
    exists j, j'. auto using image_In.
  - intros H [i i'] Hin. destruct (H _ _ Hin) as (j & j' & Hj & Hj' & Hb).
    simpl. now rewrite (In_image _ _ _ Hnd Hj), (In_image _ _ _ Hnd Hj').
Qed.

(** The enumeration yields exactly the mappings of the contract. *)
Lemma isomorphisms_spec q t m :
  In m (isomorphisms q t) <-> IsIsomorphism q t m.
Proof.
  unfold isomorphisms, IsIsomorphism. split.
  - destruct (Nat.eqb_spec (length (q_elements q)) (NumAtoms t)) as [E|]; [|intros []].
    rewrite filter_In, candidates_spec, andb_true_iff, E.
    intros [[Hf Hs] [Ha Hb]].
    assert (Hnd : List.NoDup (map fst m)) by (rewrite Hf; apply NoDup_ListNoDup, NoDup_seq).
    pose proof (proj1 (atoms_match_spec _ _ _) Ha).
    pose proof (proj1 (bonds_match_spec _ _ _ Hnd) Hb). auto.
  - intros (Hf & Hs & Ha & Hb).
    assert (E : length (q_elements q) = NumAtoms t).
    { apply Permutation_length in Hs. apply (f_equal (@length nat)) in Hf.
      rewrite !length_map, !length_seq in *. lia. }
    assert (Hnd : List.NoDup (map fst m)) by (rewrite Hf; apply NoDup_ListNoDup, NoDup_seq).
    rewrite E, Nat.eqb_refl in *. rewrite filter_In, candidates_spec, andb_true_iff.
    rewrite atoms_match_spec, (bonds_match_spec _ _ _ Hnd). auto.
Qed.

Lemma isomorphisms_counts q t :
  length (q_elements q) <> NumAtoms t -> isomorphisms q t = [].
Proof.
  unfold isomorphisms. intros H. now destruct (Nat.eqb_spec (length (q_elements q)) (NumAtoms t)).
Qed.

Lemma index_of_id_spec id l i :
  index_of_id id l = Some i -> exists a, nth_error l i = Some a /\ GetId a = id.
Proof.
  revert i. induction l as [|a l IH]; simpl; intros i; [discriminate|].
  destruct (Nat.eqb_spec (GetId a) id) as [E|_].
  - intros [= <-]. eauto.
  - destruct (index_of_id id l) as [k|]; [|discriminate].
    intros [= <-]. simpl. now apply IH.
Qed.

(** Pairing every atom with itself is an isomorphism of a molecule with
    itself. *)
Lemma identity_isomorphism G :
  In (combine (seq 0 (NumAtoms G)) (seq 0 (NumAtoms G)))
     (isomorphisms (CompileMoleculeQuery G) G).
Proof.
  apply isomorphisms_spec. unfold IsIsomorphism. cbn [CompileMoleculeQuery q_elements q_bonds].
  rewrite length_map, map_fst_combine, map_snd_combine by reflexivity.
  fold (NumAtoms G). repeat split; try reflexivity.
  - intros i j Hin. apply In_combine_diag in Hin as [<- Hi].
    apply in_seq in Hi. unfold NumAtoms in Hi.
    destruct (nth_error (atoms G) i) as [a|] eqn:Ea.
    + exists (GetAtomicNum a), a. rewrite (map_nth_error _ _ _ Ea). auto.
    + apply nth_error_None in Ea. lia.
  - intros i i' Hin. apply in_flat_map in Hin as (b & Hb & Hin).
    unfold bond_indices in Hin.
    destruct (index_of_id (GetBeginAtomId b) (atoms G)) as [k|] eqn:Ek; [|destruct Hin].
    destruct (index_of_id (GetEndAtomId b) (atoms G)) as [k'|] eqn:Ek'; [|destruct Hin].
    destruct Hin as [[= <- <-]|[]].
    apply index_of_id_spec in Ek as (a & Ha & Ia).
    apply index_of_id_spec in Ek' as (a' & Ha' & Ia').
    assert (Hk : k < NumAtoms G) by (apply nth_error_Some; congruence).
    assert (Hk' : k' < NumAtoms G) by (apply nth_error_Some; congruence).
    exists k, k'. repeat split.
    + apply In_diag_combine, in_seq. lia.
    + apply In_diag_combine, in_seq. lia.
    + unfold bonded. rewrite Ha, Ha'. apply existsb_exists. exists b. split; [exact Hb|].
      unfold connects. now rewrite Ia, Ia', !Nat.eqb_refl.
Qed.

End MapperFacts.

(** ** The evaluation of one mapping *)

Module RmsFacts.
Import DoubleFacts.

Lemma dist_sq_pos p q : sf_pos (Prim2SF (dist_sq p q)) = true.
Proof. unfold dist_sq. auto using add_pos, SQUARE_pos. Qed.

Lemma sum_pos (l : list (vector3 * vector3)) d :
  sf_pos (Prim2SF d) = true ->
  sf_pos (Prim2SF (fold_left (fun d2 pq => (d2 + dist_sq (fst pq) (snd pq))%float) l d))
  = true.
Proof.
  revert d. induction l as [|pq l IH]; intros d Hd; simpl; [exact Hd|].
  apply IH. auto using add_pos, dist_sq_pos.
Qed.

(** The value of [calc_rms] has a clear sign, or is not a number. *)
Lemma calc_rms_pos r f N : sf_pos (Prim2SF (calc_rms r f N)) = true.
Proof.
  unfold calc_rms. destruct (N =? 0); [reflexivity|].
  rewrite FloatAxioms.sqrt_spec, FloatAxioms.div_spec.
  apply SFsqrt_pos, SFdiv_pos; [|apply of_unsigned_sign].
  now apply sum_pos.
Qed.

Lemma dist_sq_diag p : vfinite p = true -> dist_sq p p = 0%float.
Proof.
  unfold vfinite, dist_sq. rewrite !andb_true_iff. intros [[Hx Hy] Hz].
  now rewrite !sub_diag.
Qed.

Lemma sum_diag c :
  List.Forall (fun p => vfinite p = true) c ->
  fold_left (fun d2 pq => (d2 + dist_sq (fst pq) (snd pq))%float) (combine c c) 0%float
  = 0%float.
Proof.
  induction 1 as [|p c Hp _ IH]; simpl; [reflexivity|].
  rewrite dist_sq_diag by exact Hp. exact IH.
Qed.

(** An array of finite points is at distance [+0] from itself. *)
Lemma calc_rms_diag c N :
  List.Forall (fun p => vfinite p = true) c ->
  0 < N -> fits_unsigned N -> calc_rms c c N = 0%float.
Proof.
  intros Hc H0 H32. unfold calc_rms.
  destruct (Nat.eqb_spec N 0) as [|_]; [lia|].
  rewrite sum_diag, zero_div_count by assumption. reflexivity.
Qed.

Lemma GetAtom_succ mol i : GetAtom mol (i + 1) = nth_error (atoms mol) i.
Proof. now rewrite Nat.add_1_r. Qed.

Lemma gather_total r t m :
  (forall i j, In (i, j) m -> i < NumAtoms r /\ j < NumAtoms t) ->
  exists refcoord testcoord, gather r t m = Some (refcoord, testcoord).
Proof.
  induction m as [|[i j] m IH]; intros H; simpl; [eauto|].
  destruct (H i j (or_introl eq_refl)) as [Hi Hj].
  destruct IH as (rc & tc & ->); [intros; apply H; now right|].
  rewrite !GetAtom_succ.
  destruct (nth_error (atoms r) i) eqn:Er; [|apply nth_error_None in Er; unfold NumAtoms in *; lia].
  destruct (nth_error (atoms t) j) eqn:Et; [|apply nth_error_None in Et; unfold NumAtoms in *; lia].
  eauto.
Qed.

Lemma gather_diag G l :
  (forall i, In i l -> i < NumAtoms G) ->
  exists c, gather G G (combine l l) = Some (c, c)
            /\ (finite_coordinates G -> List.Forall (fun p => vfinite p = true) c).
Proof.
  induction l as [|i l IH]; intros H; simpl.
  - exists []. split; [reflexivity|constructor].
  - destruct IH as (c & -> & Hc); [intros; apply H; now right|].
    rewrite GetAtom_succ.
    destruct (nth_error (atoms G) i) as [a|] eqn:Ea.
    + exists (GetVector a :: c). split; [reflexivity|].
      intros HG. constructor; [|auto].
      apply nth_error_In in Ea.
      exact (proj1 (List.Forall_forall _ _) HG a Ea).
    + apply nth_error_None in Ea. specialize (H i (or_introl eq_refl)).
      unfold NumAtoms in H. lia.
Qed.

Lemma isomorphism_in_range r t m :
  In m (isomorphisms (CompileMoleculeQuery r) t) ->
  forall i j, In (i, j) m -> i < NumAtoms r /\ j < NumAtoms t.
Proof.
  intros Hm i j Hin. apply MapperFacts.isomorphisms_spec in Hm as (_ & _ & Ha & _).
  destruct (Ha i j Hin) as (e & a & He & Ht & _).
  cbn [CompileMoleculeQuery q_elements] in He. unfold NumAtoms. split.
  - rewrite <- (length_map GetAtomicNum). apply nth_error_Some. congruence.
  - apply nth_error_Some. congruence.
Qed.

(** *** The running minimum *)

Lemma keep_smaller_cases best v :
  keep_smaller best v = best
  \/ (keep_smaller best v = v /\ (v <? best)%float = true).
Proof. unfold keep_smaller. destruct (v <? best)%float; auto. Qed.

Lemma running_min_below best vs :
  running_min best vs = best \/ (running_min best vs <? best)%float = true.
Proof.
  revert best. induction vs as [|v vs IH]; intros best; simpl; [now left|].
  fold (running_min (keep_smaller best v) vs).
  destruct (IH (keep_smaller best v)) as [->|H];
    destruct (keep_smaller_cases best v) as [E|[E Hv]]; rewrite E in *; auto.
  right. eauto using ltb_trans.
Qed.

Lemma running_min_origin best vs :
  running_min best vs = best
  \/ (In (running_min best vs) vs /\ (running_min best vs <? best)%float = true).
Proof.
  revert best. induction vs as [|v vs IH]; intros best; simpl; [now left|].
  fold (running_min (keep_smaller best v) vs).
  destruct (IH (keep_smaller best v)) as [->|[Hin H]];
    destruct (keep_smaller_cases best v) as [E|[E Hv]]; rewrite E in *; auto.
  right. split; [auto|]. eauto using ltb_trans.
Qed.

Lemma not_below_stable v best vs :
  (v <? best)%float = false -> (v <? running_min best vs)%float = false.
Proof.
  intros H. destruct (running_min_below best vs) as [->|Hlt]; [exact H|].
  destruct (v <? running_min best vs)%float eqn:E; [|reflexivity].
  rewrite (ltb_trans _ _ _ E Hlt) in H. discriminate.
Qed.

Lemma running_min_lower best vs v :
  In v vs -> (v <? running_min best vs)%float = false.
Proof.
  revert best. induction vs as [|v0 vs IH]; intros best; simpl; [tauto|].
  fold (running_min (keep_smaller best v0) vs).
  intros [->|Hin]; [|now apply IH].
  apply not_below_stable. unfold keep_smaller.
  destruct (v <? best)%float eqn:Hv; [apply ltb_irrefl|exact Hv].
Qed.

End RmsFacts.

(** ** Runs of the functor over the mappings *)

Section Runs.
Import DoubleFacts RmsFacts MapperFacts.

Variable qtrfit : coords -> coords -> nat -> matrix3.
Variable rotate_coords : coords -> matrix3 -> nat -> coords.

Lemma mapping_rmsd_pos r t min m v :
  mapping_rmsd qtrfit rotate_coords r t min m = Some v ->
  sf_pos (Prim2SF v) = true.
Proof.
  unfold mapping_rmsd. destruct (gather r t m) as [[rc tc]|]; [|discriminate].
  destruct (if min then _ else _) as [rc' tc']. intros [= <-]. apply calc_rms_pos.
Qed.

Lemma mapping_rmsd_total r t min m :
  (forall i j, In (i, j) m -> i < NumAtoms r /\ j < NumAtoms t) ->
  exists v, mapping_rmsd qtrfit rotate_coords r t min m = Some v.
Proof.
  intros H. unfold mapping_rmsd. destruct (gather_total r t m H) as (rc & tc & ->).
  destruct (if min then _ else _) as [rc' tc']. eauto.
Qed.

(** The values of a list of mappings, when each has one. *)
Lemma values_exist r t min maps :
  (forall m, In m maps -> exists v, mapping_rmsd qtrfit rotate_coords r t min m = Some v) ->
  exists vs, List.Forall2
               (fun m v => mapping_rmsd qtrfit rotate_coords r t min m = Some v) maps vs.
Proof.
  induction maps as [|m maps IH]; intros H.
  - exists []. constructor.
  - destruct (H m (or_introl eq_refl)) as [v Hv].
    destruct IH as [vs Hvs]; [intros; apply H; now right|].
    exists (v :: vs). now constructor.
Qed.

(** A run over mappings that all have a value calls the functor on each
    of them, leaves the two molecules and the flag alone, and ends with
    the running minimum of the values. *)
Lemma visit_each_call f maps vs :
  List.Forall2
    (fun m v => mapping_rmsd qtrfit rotate_coords (ref f) (test f) (minimize f) m = Some v)
    maps vs ->
  visit_each (call qtrfit rotate_coords) f maps
  = Some (mkMapRMSDFunctor (ref f) (test f) (running_min (bestRMSD f) vs) (minimize f),
          maps).
Proof.
  revert f vs. induction maps as [|m maps IH]; intros f vs H;
    inversion H as [|? v ? vs' Hv Hvs]; subst; simpl.
  - now destruct f.
  - unfold call at 1. rewrite Hv.
    rewrite (IH _ vs') by exact Hvs. reflexivity.
Qed.

(** Whatever the mappings, a run that ends leaves the two molecules and
    the flag as they were. *)
Lemma visit_each_frame maps : forall f f' calls,
  visit_each (call qtrfit rotate_coords) f maps = Some (f', calls) ->
  ref f' = ref f /\ test f' = test f /\ minimize f' = minimize f.
Proof.
  induction maps as [|m maps IH]; intros f f' calls; simpl.
  - intros [= <- _]. auto.
  - unfold call at 1.
    destruct (mapping_rmsd _ _ _ _ _ m) as [v|]; [|discriminate].
    destruct (visit_each _ _ maps) as [[f'' calls']|] eqn:E; [|discriminate].
    intros [= <- _]. apply IH in E. exact E.
Qed.

Lemma run_of_isomorphisms molref moltest min :
  exists vs,
    List.Forall2
      (fun m v => mapping_rmsd qtrfit rotate_coords molref moltest min m = Some v)
      (isomorphisms (CompileMoleculeQuery molref) moltest) vs
    /\ computeRMSD_run qtrfit rotate_coords (Matcher_new molref) moltest min
       = Some (mkOutcome (running_min HUGE_VAL vs) molref moltest
                         (isomorphisms (CompileMoleculeQuery molref) moltest)).
Proof.
  destruct (values_exist molref moltest min
              (isomorphisms (CompileMoleculeQuery molref) moltest)) as [vs Hvs].
  { intros m Hm. apply mapping_rmsd_total. now apply isomorphism_in_range. }
  exists vs. split; [exact Hvs|].
  unfold computeRMSD_run, MapGeneric, Matcher_new. cbn [matcher_ref query].
  rewrite (visit_each_call _ _ vs) by exact Hvs. reflexivity.
Qed.

Lemma Forall2_In_l {A B} (R : A -> B -> Prop) l l' a :
  List.Forall2 R l l' -> In a l -> exists b, In b l' /\ R a b.
Proof.
  induction 1 as [|x y l l' Hxy _ IH]; simpl; [tauto|].
  intros [->|Hin]; [eauto|]. destruct (IH Hin) as (b & ? & ?). eauto.
Qed.

Lemma Forall2_In_r {A B} (R : A -> B -> Prop) l l' b :
  List.Forall2 R l l' -> In b l' -> exists a, In a l /\ R a b.
Proof.
  induction 1 as [|x y l l' Hxy _ IH]; simpl; [tauto|].
  intros [->|Hin]; [eauto|]. destruct (IH Hin) as (a & ? & ?). eauto.
Qed.

End Runs.

(** ** The result of [computeRMSD] *)

Section Results.
Import DoubleFacts RmsFacts MapperFacts.

Variable qtrfit : coords -> coords -> nat -> matrix3.
Variable rotate_coords : coords -> matrix3 -> nat -> coords.

(** C1. When the reference and the test molecule have different atom
    counts, or no mapping between them is an isomorphism, the functor is
    never called and [computeRMSD] returns [HUGE_VAL], the value the best
    RMSD is initialised to; the run does not fail, and leaves the
    molecules as they were. *)
Theorem no_isomorphism_gives_infinity (molref moltest : OBMol) (min : bool) :
  NumAtoms molref <> NumAtoms moltest
  \/ (forall m, ~ IsIsomorphism (CompileMoleculeQuery molref) moltest m) ->
  computeRMSD_run qtrfit rotate_coords (Matcher_new molref) moltest min
  = Some (mkOutcome HUGE_VAL molref moltest [])
  /\ computeRMSD qtrfit rotate_coords (Matcher_new molref) moltest min
     = Some infinity.
Proof.
  intros H.
  assert (E : isomorphisms (CompileMoleculeQuery molref) moltest = []).
  { destruct H as [H|H].
    - apply isomorphisms_counts. cbn [CompileMoleculeQuery q_elements].
      now rewrite length_map.
    - destruct (isomorphisms _ _) as [|m l] eqn:E; [reflexivity|].
      exfalso. apply (H m), isomorphisms_spec. rewrite E. now left. }
  unfold computeRMSD, computeRMSD_run, MapGeneric, Matcher_new.
  cbn [matcher_ref query]. rewrite E. split; reflexivity.
Qed.

(** C2. [computeRMSD] visits every mapping the mapper enumerates, whatever
    the minimize flag and whatever was found before, because a call of the
    functor always returns false; every mapping has an RMSD, and the value
    returned is their minimum for the comparison [<] of doubles: no mapping
    has an RMSD below it, and it is the RMSD of one of the mappings unless
    it is [HUGE_VAL], the value of the accumulator before the first call.
    It is the running minimum of the RMSDs in the order of the enumeration. *)
Theorem computeRMSD_is_minimum (molref moltest : OBMol) (min : bool) :
  exists o,
    computeRMSD_run qtrfit rotate_coords (Matcher_new molref) moltest min = Some o
    /\ computeRMSD qtrfit rotate_coords (Matcher_new molref) moltest min
       = Some (rmsd o)
    /\ invoked o = isomorphisms (CompileMoleculeQuery molref) moltest
    /\ (forall m, In m (isomorphisms (CompileMoleculeQuery molref) moltest) ->
          exists v, mapping_rmsd qtrfit rotate_coords molref moltest min m = Some v
                    /\ (v <? rmsd o)%float = false)
    /\ (rmsd o = HUGE_VAL
        \/ exists m, In m (isomorphisms (CompileMoleculeQuery molref) moltest)
                     /\ mapping_rmsd qtrfit rotate_coords molref moltest min m
                        = Some (rmsd o))
    /\ (exists values,
          List.Forall2
            (fun m v => mapping_rmsd qtrfit rotate_coords molref moltest min m = Some v)
            (isomorphisms (CompileMoleculeQuery molref) moltest) values
          /\ rmsd o = running_min HUGE_VAL values)
    /\ (forall f m stop f', call qtrfit rotate_coords f m = Some (stop, f') ->
          stop = false).
Proof.
  destruct (run_of_isomorphisms qtrfit rotate_coords molref moltest min)
    as (vs & Hvs & Hrun).
  eexists. split; [exact Hrun|]. unfold computeRMSD. rewrite Hrun.
  cbn [option_map rmsd invoked]. repeat split.
  3:{ exists vs. split; [exact Hvs|reflexivity]. }
  - intros m Hm. destruct (Forall2_In_l _ _ _ _ Hvs Hm) as (v & Hv & Hmv).
    exists v. split; [exact Hmv|]. now apply running_min_lower.
  - destruct (running_min_origin HUGE_VAL vs) as [E|[Hin _]]; [now left|right].
    destruct (Forall2_In_r _ _ _ _ Hvs Hin) as (m & Hm & Hmv). eauto.
  - intros f m stop f'. unfold call.
    destruct (mapping_rmsd _ _ _ _ _ m); [|discriminate]. now intros [= <- _].
Qed.

(** C9. [computeRMSD] does not modify the molecules: when it returns, the
    reference molecule of the matcher and the test molecule are the ones it
    was called with, in both minimize modes; with a matcher built from the
    reference molecule it always returns. *)
Theorem computeRMSD_leaves_molecules (min : bool) :
  (forall (this : Matcher) (moltest : OBMol),
      match computeRMSD_run qtrfit rotate_coords this moltest min with
      | Some o => ref_after o = matcher_ref this /\ test_after o = moltest
      | None => True
      end)
  /\ (forall molref moltest : OBMol,
        exists o,
          computeRMSD_run qtrfit rotate_coords (Matcher_new molref) moltest min
          = Some o
          /\ ref_after o = molref /\ test_after o = moltest).
Proof.
  split.
  - intros this moltest. unfold computeRMSD_run, MapGeneric.
    destruct (visit_each _ _ _) as [[f' calls]|] eqn:E; [|exact I].
    apply visit_each_frame in E as (Hr & Ht & _).
    cbn [outcome_of ref_after test_after]. now rewrite Hr, Ht.
  - intros molref moltest.
    destruct (run_of_isomorphisms qtrfit rotate_coords molref moltest min)
      as (vs & _ & Hrun).
    eexists. split; [exact Hrun|]. split; reflexivity.
Qed.

(** C10, as amended.  The best RMSD never goes up: after a call of the
    functor it is the value it had or a value below it.  The value returned
    by [computeRMSD] is [HUGE_VAL] or a finite double that is not below
    zero (never a NaN, never negative); it is finite as soon as the RMSD of
    one visited mapping is. *)
Theorem best_rmsd_monotone_and_nonnegative :
  (forall f m stop f',
      call qtrfit rotate_coords f m = Some (stop, f') ->
      bestRMSD f' = bestRMSD f \/ (bestRMSD f' <? bestRMSD f)%float = true)
  /\ (forall (molref moltest : OBMol) (min : bool),
        exists r,
          computeRMSD qtrfit rotate_coords (Matcher_new molref) moltest min = Some r
          /\ (r = HUGE_VAL \/ (is_finite r = true /\ (0 <=? r)%float = true))
          /\ (forall m v,
                In m (isomorphisms (CompileMoleculeQuery molref) moltest) ->
                mapping_rmsd qtrfit rotate_coords molref moltest min m = Some v ->
                is_finite v = true ->
                is_finite r = true /\ (0 <=? r)%float = true)).
Proof.
  split.
  - intros f m stop f'. unfold call.
    destruct (mapping_rmsd _ _ _ _ _ m) as [v|]; [|discriminate].
    intros [= _ <-]. cbn [bestRMSD].
    destruct (v <? bestRMSD f)%float eqn:E; auto.
  - intros molref moltest min.
    destruct (run_of_isomorphisms qtrfit rotate_coords molref moltest min)
      as (vs & Hvs & Hrun).
    exists (running_min HUGE_VAL vs). unfold computeRMSD. rewrite Hrun.
    split; [reflexivity|].
    assert (Hcases : running_min HUGE_VAL vs = HUGE_VAL
                     \/ (is_finite (running_min HUGE_VAL vs) = true
                         /\ (0 <=? running_min HUGE_VAL vs)%float = true)).
    { destruct (running_min_origin HUGE_VAL vs) as [E|[Hin Hlt]]; [now left|right].
      destruct (Forall2_In_r _ _ _ _ Hvs Hin) as (m & _ & Hmv).
      apply mapping_rmsd_pos in Hmv. eapply pos_ltb_finite; eauto. }
    split; [exact Hcases|].
    intros m v Hm Hmv Hfin. destruct Hcases as [E|H]; [|exact H].
    exfalso.
    destruct (Forall2_In_l _ _ _ _ Hvs Hm) as (v' & Hv' & Hmv').
    assert (v' = v) by congruence. subst v'.
    pose proof (running_min_lower HUGE_VAL vs v Hv') as Hlow.
    rewrite E in Hlow. unfold HUGE_VAL in Hlow.
    rewrite (finite_ltb_infinity v Hfin) in Hlow. discriminate.
Qed.

End Results.

(** ** The empty mapping, the identity comparison and the translated copy *)

Section Scenarios.
Import DoubleFacts RmsFacts MapperFacts.

Variable qtrfit : coords -> coords -> nat -> matrix3.
Variable rotate_coords : coords -> matrix3 -> nat -> coords.

(** C3, as amended.  The RMSD of the empty mapping is 0 in both modes, by
    the convention of [calc_rms], and a call of the functor on it keeps the
    smaller of 0 and the best value so far.  The functor itself has no
    guard on [N]: with points the average it takes is the guarded one, and
    with none the division [0.0 / 0] is evaluated and gives NaN (which the
    centring loop, running zero times, never reads). *)
Theorem empty_mapping_rmsd_is_zero (molref moltest : OBMol) (min : bool) :
  mapping_rmsd qtrfit rotate_coords molref moltest min [] = Some 0%float
  /\ (forall f,
        call qtrfit rotate_coords f []
        = Some (false,
                mkMapRMSDFunctor (ref f) (test f)
                                 (keep_smaller (bestRMSD f) 0) (minimize f)))
  /\ (forall c N, 0 < N -> average c N = guarded_average c N)
  /\ average [] 0 = mkvector3 nan nan nan.
Proof.
  assert (H : forall r t m, mapping_rmsd qtrfit rotate_coords r t m [] = Some 0%float).
  { intros r t m. unfold mapping_rmsd. cbn [gather length].
    destruct m; [unfold fit|]; reflexivity. }
  split; [apply H|]. split; [|split].
  - intros f. unfold call. now rewrite H.
  - intros c N HN. unfold guarded_average.
    destruct (Nat.eqb_spec N 0); [lia|reflexivity].
  - reflexivity.
Qed.

(** C4, as amended.  A molecule with a heavy atom, fewer than [2^32] atoms
    and finite coordinates is at RMSD exactly 0 from itself when minimize
    is false. *)
Theorem self_comparison_is_zero (G : OBMol) :
  has_heavy_atom G -> fits_unsigned (NumAtoms G) -> finite_coordinates G ->
  computeRMSD qtrfit rotate_coords (Matcher_new G) G false = Some 0%float.
Proof.
  intros (a0 & Ha0 & _) H32 Hfin.
  assert (Hpos : 0 < NumAtoms G).
  { unfold NumAtoms. destruct (atoms G); [destruct Ha0|simpl; lia]. }
  destruct (run_of_isomorphisms qtrfit rotate_coords G G false) as (vs & Hvs & Hrun).
  unfold computeRMSD. rewrite Hrun. cbn [option_map rmsd]. f_equal.
  (* the identity mapping is visited, and its RMSD is 0 *)
  destruct (Forall2_In_l _ _ _ _ Hvs (identity_isomorphism G)) as (v & Hv & Hmv).
  assert (v = 0%float) as ->.
  { unfold mapping_rmsd in Hmv.
    destruct (gather_diag G (seq 0 (NumAtoms G))) as (c & Hc & Hcfin).
    { intros i Hi. apply in_seq in Hi. lia. }
    rewrite Hc in Hmv. injection Hmv as <-.
    rewrite length_combine, length_seq, Nat.min_id.
    apply calc_rms_diag; auto. }
  pose proof (running_min_lower HUGE_VAL vs _ Hv) as Hlow.
  destruct (running_min_origin HUGE_VAL vs) as [E|[Hin Hlt]].
  - rewrite E in Hlow. discriminate Hlow.
  - destruct (Forall2_In_r _ _ _ _ Hvs Hin) as (m & _ & Hm).
    apply mapping_rmsd_pos in Hm.
    apply pos_not_above_zero; eauto using ltb_not_nan.
Qed.

(** C8. With minimize false the RMSD of a mapping is [calc_rms] of the
    coordinates as gathered from the two molecules: no centring, no
    rotation, whatever the fitting routines are.  For two bonded atoms
    A(0,0,0)-B(1,0,0), of any elements, and their copy translated by z = 1
    the result is exactly 1; for two carbon atoms it is 1 also after the
    normalisation of both molecules. *)
Theorem raw_rmsd_without_minimize :
  (forall r t map,
      mapping_rmsd qtrfit rotate_coords r t false map
      = match gather r t map with
        | Some (refcoord, testcoord) =>
            Some (calc_rms refcoord testcoord (length map))
        | None => None
        end)
  /\ (forall eA eB,
        computeRMSD qtrfit rotate_coords
          (Matcher_new (two_atoms eA eB 0)) (two_atoms eA eB 1) false
        = Some 1%float)
  /\ compareOne qtrfit rotate_coords AB_ref AB_test false = Some 1%float.
Proof.
  split; [|split].
  - intros r t map. unfold mapping_rmsd.
    now destruct (gather r t map) as [[rc tc]|].
  - intros eA eB.
    unfold computeRMSD, computeRMSD_run, MapGeneric, isomorphisms.
    cbn [Matcher_new query matcher_ref CompileMoleculeQuery q_elements atoms
         two_atoms mol_of map length NumAtoms Nat.eqb].
    change (candidates 2) with [[(0, 0); (1, 1)]; [(0, 1); (1, 0)]].
    cbn [List.filter].
    (* the identity mapping always matches; the swapped one when eA = eB *)
    replace (atoms_match _ _ [(0, 0); (1, 1)]) with true
      by (cbn; now rewrite !Nat.eqb_refl).
    replace (bonds_match _ _ [(0, 0); (1, 1)]) with true by reflexivity.
    cbn [andb].
    destruct (_ && _); vm_compute; reflexivity.
  - vm_compute. reflexivity.
Qed.

End Scenarios.

(** ** Closed examples *)

(** C1 at a reference of one atom and a test molecule of two. *)
Lemma no_isomorphism_gives_infinity_witness :
  computeRMSD identity_fit matrix_apply (Matcher_new one_atom) AB_ref true
  = Some infinity.
Proof.
  refine (proj2 (no_isomorphism_gives_infinity identity_fit matrix_apply
                   one_atom AB_ref true (or_introl _))).
  simpl. discriminate.
Defined.

(** The claim of C3 fails for the average of the [minimize] block: on the
    empty array it is not the guarded average (the accumulator left at
    zero) but the result of [0.0 / 0], a NaN.  The functor is called on
    the empty mapping when both molecules have hydrogens only. *)
Lemma centroid_mean_is_unguarded :
  average [] 0 <> guarded_average [] 0
  /\ is_nan (vx (average [] 0)) = true
  /\ option_map invoked
       (computeRMSD_run identity_fit matrix_apply
          (Matcher_new (processMol H2)) (processMol H2) true)
     = Some [[]].
Proof.
  split; [|split; reflexivity].
  intros H. apply (f_equal (fun v => is_nan (vx v))) in H.
  vm_compute in H. discriminate H.
Qed.

(** C4 at the molecule [AB_ref]. *)
Lemma self_comparison_is_zero_witness :
  computeRMSD identity_fit matrix_apply (Matcher_new AB_ref) AB_ref false
  = Some 0%float.
Proof.
  apply (self_comparison_is_zero identity_fit matrix_apply AB_ref).
  - exists (carbon 0 0 0 0). split; [now left|reflexivity].
  - reflexivity.
  - repeat constructor.
Defined.

(** The claim of C4 fails for a molecule with a coordinate that is not a
    number: its only atom is heavy, and its RMSD from itself is
    [HUGE_VAL], not 0. *)
Lemma nan_coordinate_self_comparison :
  has_heavy_atom nan_atom
  /\ fits_unsigned (NumAtoms nan_atom)
  /\ computeRMSD identity_fit matrix_apply (Matcher_new nan_atom) nan_atom false
     = Some infinity
  /\ computeRMSD identity_fit matrix_apply (Matcher_new nan_atom) nan_atom false
     <> Some 0%float.
Proof.
  split; [|split; [|split]].
  - exists (carbon 0 nan 0 0). split; [now left|reflexivity].
  - reflexivity.
  - reflexivity.
  - intros H.
    apply (f_equal (fun o => match o with Some x => is_infinity x | None => false end)) in H.
    vm_compute in H. discriminate H.
Qed.

(** The claim of C10 fails when a squared distance overflows: the two
    molecules have one atom each, at finite coordinates; the one mapping
    (with [N = 1]) is visited, and the value returned is not finite. *)
Lemma overflow_gives_infinite_rmsd :
  finite_coordinates far_right /\ finite_coordinates far_left
  /\ computeRMSD_run identity_fit matrix_apply (Matcher_new far_right) far_left false
     = Some (mkOutcome infinity far_right far_left [[(0, 0)]])
  /\ is_finite infinity = false.
Proof.
  split; [repeat constructor|]. split; [repeat constructor|].
  split; reflexivity.
Qed.


(** * The rest of [obrms.cpp] *)

(** ** [AtomDistanceSorter] *)

(** [AtomDistanceSorter] (lines 51-67): a comparison of atoms by their
    squared distance to a reference atom.  [vector3::distSq] is a library
    routine outside [obrms.cpp]; it is a parameter here. *)
Section AtomDistanceSorter.
Variable distSq : vector3 -> vector3 -> float.

Record AtomDistanceSorter : Type := mkAtomDistanceSorter { sorter_ref : vector3 }.

(** The constructor: [ref(r->GetVector())]. *)
Definition AtomDistanceSorter_new (r : OBAtom) : AtomDistanceSorter :=
  mkAtomDistanceSorter (GetVector r).

(** [AtomDistanceSorter::operator()]. *)
Definition sorter_call (this : AtomDistanceSorter) (l r : OBAtom) : bool :=
  let ld := distSq (sorter_ref this) (GetVector l) in
  let rd := distSq (sorter_ref this) (GetVector r) in
  (ld <? rd)%float.

(** Neither atom is ordered before the other. *)
Definition sorter_equiv (this : AtomDistanceSorter) (l r : OBAtom) : Prop :=
  sorter_call this l r = false /\ sorter_call this r l = false.
End AtomDistanceSorter.

Module OrderFacts.
Import DoubleFacts.

Lemma SFcompare_Eq_trans x y z :
  SFcompare x y = Some Eq -> SFcompare y z = Some Eq -> SFcompare x z = Some Eq.
Proof.
  destruct x as [[]|[]| |[] mx ex], y as [[]|[]| |[] my ey], z as [[]|[]| |[] mz ez];
    simpl; try congruence;
    change (Pos.compare_cont Eq) with Pos.compare;
    destruct (Z.compare_spec ex ey), (Z.compare_spec ey ez); try congruence;
    destruct (Z.compare_spec ex ez); try lia; try congruence; subst;
    destruct (Pos.compare_spec mx my), (Pos.compare_spec my mz); simpl; try congruence;
    destruct (Pos.compare_spec mx mz); simpl; try lia; try congruence.
Qed.

(** Two numbers neither of which is below the other compare equal. *)
Lemma SFcompare_incomparable x y :
  sf_is_nan x = false -> sf_is_nan y = false ->
  SFltb x y = false -> SFltb y x = false -> SFcompare x y = Some Eq.
Proof.
  unfold SFltb.
  destruct x as [[]|[]| |[] mx ex], y as [[]|[]| |[] my ey];
    simpl; try congruence;
    change (Pos.compare_cont Eq) with Pos.compare;
    destruct (Z.compare_spec ex ey), (Z.compare_spec ey ex);
    try lia; try congruence; subst;
    destruct (Pos.compare_spec mx my), (Pos.compare_spec my mx);
    simpl; try lia; congruence.
Qed.

Lemma SFcompare_Eq_ltb x y :
  SFcompare x y = Some Eq -> SFltb x y = false /\ SFltb y x = false.
Proof.
  unfold SFltb.
  destruct x as [[]|[]| |[] mx ex], y as [[]|[]| |[] my ey];
    simpl; try congruence; auto;
    change (Pos.compare_cont Eq) with Pos.compare;
    destruct (Z.compare_spec ex ey), (Z.compare_spec ey ex);
    try lia; try congruence; subst;
    destruct (Pos.compare_spec mx my), (Pos.compare_spec my mx);
    simpl; try lia; try congruence; auto.
Qed.

(** Numbers with a clear sign that compare equal are the same number. *)
Lemma SFcompare_Eq_pos x y :
  sf_pos x = true -> sf_pos y = true ->
  sf_is_nan x = false -> SFcompare x y = Some Eq -> x = y.
Proof.
  destruct x as [[]|[]| |[] mx ex], y as [[]|[]| |[] my ey];
    simpl; try congruence.
  change (Pos.compare_cont Eq) with Pos.compare.
  destruct (Z.compare_spec ex ey); try congruence.
  destruct (Pos.compare_spec mx my); simpl; congruence.
Qed.

Lemma ltb_asym x y : (x <? y)%float = true -> (y <? x)%float = false.
Proof.
  intros H. destruct (y <? x)%float eqn:E; [|reflexivity].
  now rewrite <- (ltb_irrefl x), (ltb_trans _ _ _ H E).
Qed.

Lemma ltb_nan_l x y : is_nan x = true -> (x <? y)%float = false.
Proof.
  rewrite is_nan_spec, FloatAxioms.ltb_spec. unfold SFltb.
  destruct (Prim2SF x); simpl; congruence.
Qed.

Lemma ltb_nan_r x y : is_nan y = true -> (x <? y)%float = false.
Proof.
  rewrite is_nan_spec, FloatAxioms.ltb_spec. unfold SFltb.
  destruct (Prim2SF x), (Prim2SF y); simpl; congruence.
Qed.

Lemma incomparable_trans x y z :
  is_nan x = false -> is_nan y = false -> is_nan z = false ->
  (x <? y)%float = false -> (y <? x)%float = false ->
  (y <? z)%float = false -> (z <? y)%float = false ->
  (x <? z)%float = false /\ (z <? x)%float = false.
Proof.
  rewrite !is_nan_spec, !FloatAxioms.ltb_spec. intros Hx Hy Hz Hxy Hyx Hyz Hzy.
  apply SFcompare_Eq_ltb.
  apply (SFcompare_Eq_trans _ (Prim2SF y)); apply SFcompare_incomparable; assumption.
Qed.

(** Two numbers with a clear sign, neither below the other, are equal. *)
Lemma pos_incomparable_eq x y :
  sf_pos (Prim2SF x) = true -> sf_pos (Prim2SF y) = true ->
  is_nan x = false -> is_nan y = false ->
  (x <? y)%float = false -> (y <? x)%float = false -> x = y.
Proof.
  rewrite !is_nan_spec, !FloatAxioms.ltb_spec. intros Px Py Hx Hy Hxy Hyx.
  apply Prim2SF_inj. apply SFcompare_Eq_pos; auto.
  now apply SFcompare_incomparable.
Qed.

End OrderFacts.

Section SorterOrder.
Import DoubleFacts OrderFacts.
Variable distSq : vector3 -> vector3 -> float.

(** X1. Whatever the distance routine and the reference atom, the
    comparison of [AtomDistanceSorter] is a strict order: no atom is before
    itself, two atoms are never before each other, and the comparison is
    transitive. *)
Theorem sorter_strict_order (ref_atom : OBAtom) :
  let this := AtomDistanceSorter_new ref_atom in
  (forall a, sorter_call distSq this a a = false)
  /\ (forall a b, sorter_call distSq this a b = true ->
                  sorter_call distSq this b a = false)
  /\ (forall a b c, sorter_call distSq this a b = true ->
                    sorter_call distSq this b c = true ->
                    sorter_call distSq this a c = true).
Proof.
  unfold sorter_call. cbn. repeat split.
  - intros a. apply ltb_irrefl.
  - intros a b. apply ltb_asym.
  - intros a b c. apply ltb_trans.
Qed.

(** X2. Among atoms whose squared distance to the reference is a number,
    being ordered neither way is transitive: with the strict order above
    the comparison is then a strict weak ordering, as a sort needs. *)
Theorem sorter_equiv_transitive (ref_atom a b c : OBAtom) :
  let this := AtomDistanceSorter_new ref_atom in
  is_nan (distSq (GetVector ref_atom) (GetVector a)) = false ->
  is_nan (distSq (GetVector ref_atom) (GetVector b)) = false ->
  is_nan (distSq (GetVector ref_atom) (GetVector c)) = false ->
  sorter_equiv distSq this a b -> sorter_equiv distSq this b c ->
  sorter_equiv distSq this a c.
Proof.
  unfold sorter_equiv, sorter_call. cbn.
  intros Ha Hb Hc [Hab Hba] [Hbc Hcb].
  apply (incomparable_trans _ (distSq (GetVector ref_atom) (GetVector b)));
    assumption.
Qed.

(** X3. An atom whose squared distance to the reference is not a number is
    ordered neither before nor after any atom, itself included. *)
Theorem sorter_nan_unordered (ref_atom a : OBAtom) :
  is_nan (distSq (GetVector ref_atom) (GetVector a)) = true ->
  forall b, sorter_equiv distSq (AtomDistanceSorter_new ref_atom) a b.
Proof.
  intros Ha b. unfold sorter_equiv, sorter_call. cbn.
  split; [now apply ltb_nan_l|now apply ltb_nan_r].
Qed.

End SorterOrder.

(** X2 at the origin and the three unit points of the axes, with the sum
    of squared differences for the distance. *)
Lemma sorter_equiv_transitive_witness :
  sorter_equiv dist_sq (AtomDistanceSorter_new (carbon 0 0 0 0))
               (carbon 1 1 0 0) (carbon 3 0 0 1).
Proof.
  apply (sorter_equiv_transitive dist_sq (carbon 0 0 0 0)
           (carbon 1 1 0 0) (carbon 2 0 1 0) (carbon 3 0 0 1));
    try reflexivity; split; reflexivity.
Defined.

(** ** The coordinate arrays of a mapping *)

Module GatherFacts.
Import RmsFacts.

Lemma gather_Some_inv r t i j rest rc tc :
  gather r t ((i, j) :: rest) = Some (rc, tc) ->
  exists a b rc' tc',
    nth_error (atoms r) i = Some a /\ nth_error (atoms t) j = Some b
    /\ gather r t rest = Some (rc', tc')
    /\ rc = GetVector a :: rc' /\ tc = GetVector b :: tc'.
Proof.
  simpl. rewrite !GetAtom_succ.
  destruct (nth_error (atoms r) i) as [a|]; [|discriminate].
  destruct (nth_error (atoms t) j) as [b|]; [|discriminate].
  destruct (gather r t rest) as [[rc' tc']|]; [|discriminate].
  intros [= <- <-]. exists a, b, rc', tc'. auto.
Qed.

Lemma gather_None_iff r t map :
  gather r t map = None
  <-> exists i j, In (i, j) map /\ (NumAtoms r <= i \/ NumAtoms t <= j).
Proof.
  split.
  - induction map as [|[i j] rest IH]; simpl; [discriminate|].
    rewrite !GetAtom_succ.
    destruct (nth_error (atoms r) i) as [a|] eqn:Ea.
    2:{ intros _. exists i, j. apply nth_error_None in Ea. auto. }
    destruct (nth_error (atoms t) j) as [b|] eqn:Eb.
    2:{ intros _. exists i, j. apply nth_error_None in Eb. auto. }
    destruct (gather r t rest) as [[rc tc]|]; [discriminate|].
    intros _. destruct (IH eq_refl) as (i' & j' & Hin & H). eauto.
  - intros (i & j & Hin & H).
    destruct (gather r t map) as [[rc tc]|] eqn:E; [exfalso|reflexivity].
    revert rc tc E. induction map as [|[i0 j0] rest IH]; intros rc tc E; [destruct Hin|].
    apply gather_Some_inv in E as (a & b & rc' & tc' & Ha & Hb & E' & _).
    destruct Hin as [[= -> ->]|Hin]; [|eauto].
    unfold NumAtoms in H.
    assert (i < length (atoms r)) by (apply nth_error_Some; congruence).
    assert (j < length (atoms t)) by (apply nth_error_Some; congruence).
    lia.
Qed.

End GatherFacts.

(** X4. The assertion of [operator()] fails exactly when some pair of the
    mapping names an atom index outside its molecule.  Otherwise the two
    coordinate arrays have one point per pair of the mapping, and point [k]
    of each is the position of the atom that pair [k] names in the
    reference and in the test molecule. *)
Theorem gather_bounds (r t : OBMol) (map : Mapping) :
  (gather r t map = None
   <-> exists i j, In (i, j) map /\ (NumAtoms r <= i \/ NumAtoms t <= j))
  /\ (forall refcoord testcoord,
        gather r t map = Some (refcoord, testcoord) ->
        length refcoord = length map /\ length testcoord = length map
        /\ forall k i j, nth_error map k = Some (i, j) ->
             exists a b,
               GetAtom r (i + 1) = Some a /\ GetAtom t (j + 1) = Some b
               /\ nth_error refcoord k = Some (GetVector a)
               /\ nth_error testcoord k = Some (GetVector b)).
Proof.
  split; [apply GatherFacts.gather_None_iff|].
  induction map as [|[i j] rest IH]; intros rc tc E.
  - injection E as <- <-. repeat split. intros [|k] ? ?; discriminate.
  - apply GatherFacts.gather_Some_inv in E
      as (a & b & rc' & tc' & Ha & Hb & E' & -> & ->).
    destruct (IH _ _ E') as (Lr & Lt & Hk). simpl.
    repeat split; try congruence.
    intros [|k] i' j' Hnth; simpl in Hnth.
    + injection Hnth as <- <-. exists a, b.
      rewrite !RmsFacts.GetAtom_succ. auto.
    + apply Hk. exact Hnth.
Qed.

(** ** The order of the enumeration *)

Module PermutationFacts.
Import DoubleFacts OrderFacts RmsFacts.

(** Keeping the smaller value commutes, for new values with a clear sign. *)
Lemma keep_smaller_swap best x y :
  sf_pos (Prim2SF x) = true -> sf_pos (Prim2SF y) = true ->
  keep_smaller (keep_smaller best x) y = keep_smaller (keep_smaller best y) x.
Proof.
  intros Px Py. unfold keep_smaller.
  destruct (x <? best)%float eqn:Hxb, (y <? best)%float eqn:Hyb;
    rewrite ?Hxb, ?Hyb.
  - destruct (y <? x)%float eqn:Hyx, (x <? y)%float eqn:Hxy; try reflexivity.
    + rewrite (ltb_asym _ _ Hyx) in Hxy. discriminate.
    + apply pos_incomparable_eq; eauto using ltb_not_nan.
  - destruct (y <? x)%float eqn:Hyx; [|reflexivity].
    rewrite (ltb_trans _ _ _ Hyx Hxb) in Hyb. discriminate.
  - destruct (x <? y)%float eqn:Hxy; [|reflexivity].
    rewrite (ltb_trans _ _ _ Hxy Hyb) in Hxb. discriminate.
  - reflexivity.
Qed.

Lemma running_min_perm vs vs' :
  Permutation vs vs' ->
  List.Forall (fun v => sf_pos (Prim2SF v) = true) vs ->
  forall best, running_min best vs = running_min best vs'.
Proof.
  induction 1 as [|v vs vs' _ IH|x y vs|vs vs' vs'' H1 IH1 H2 IH2];
    intros Hpos best.
  - reflexivity.
  - simpl. apply IH. now inversion Hpos.
  - simpl. f_equal. inversion Hpos as [|? ? Py Hpos']; subst.
    inversion Hpos' as [|? ? Px _]; subst. now apply keep_smaller_swap.
  - rewrite IH1 by assumption. apply IH2.
    eapply Permutation_Forall; eassumption.
Qed.

End PermutationFacts.

Section Enumeration.
Import DoubleFacts OrderFacts RmsFacts PermutationFacts.
Variable qtrfit : coords -> coords -> nat -> matrix3.
Variable rotate_coords : coords -> matrix3 -> nat -> coords.

(** The RMSDs of a list of mappings, in order; [None] when the assertion
    fails for one of them. *)
Fixpoint values_of (r t : OBMol) (min : bool) (maps : list Mapping)
  : option (list float) :=
  match maps with
  | [] => Some []
  | m :: rest =>
      match mapping_rmsd qtrfit rotate_coords r t min m, values_of r t min rest with
      | Some v, Some vs => Some (v :: vs)
      | _, _ => None
      end
  end.

Lemma visit_each_values f maps :
  visit_each (call qtrfit rotate_coords) f maps
  = option_map
      (fun vs => (mkMapRMSDFunctor (ref f) (test f)
                    (running_min (bestRMSD f) vs) (minimize f), maps))
      (values_of (ref f) (test f) (minimize f) maps).
Proof.
  revert f. induction maps as [|m maps IH]; intros f; simpl.
  - now destruct f.
  - unfold call at 1.
    destruct (mapping_rmsd _ _ _ _ _ m) as [v|]; [|reflexivity].
    rewrite IH. cbn [ref test minimize bestRMSD].
    now destruct (values_of _ _ _ maps).
Qed.

Lemma values_of_pos r t min maps vs :
  values_of r t min maps = Some vs ->
  List.Forall (fun v => sf_pos (Prim2SF v) = true) vs.
Proof.
  revert vs. induction maps as [|m maps IH]; intros vs; simpl.
  - intros [= <-]. constructor.
  - destruct (mapping_rmsd _ _ _ _ _ m) as [v|] eqn:Ev; [|discriminate].
    destruct (values_of _ _ _ maps) as [vs0|]; [|discriminate].
    intros [= <-]. constructor; [|auto].
    eapply mapping_rmsd_pos. exact Ev.
Qed.

Lemma values_of_perm r t min maps maps' :
  Permutation maps maps' ->
  match values_of r t min maps, values_of r t min maps' with
  | Some vs, Some vs' => Permutation vs vs'
  | None, None => True
  | _, _ => False
  end.
Proof.
  induction 1 as [|m maps maps' _ IH|m1 m2 maps|maps maps' maps'' _ IH1 _ IH2]; simpl.
  - constructor.
  - destruct (mapping_rmsd qtrfit rotate_coords r t min m) as [v|];
      destruct (values_of r t min maps), (values_of r t min maps'); auto.
  - destruct (mapping_rmsd qtrfit rotate_coords r t min m1) as [v1|];
      destruct (mapping_rmsd qtrfit rotate_coords r t min m2) as [v2|];
      destruct (values_of r t min maps); auto. constructor.
  - destruct (values_of r t min maps), (values_of r t min maps'),
             (values_of r t min maps''); try tauto.
    eapply Permutation_trans; eassumption.
Qed.

(** X5. The best RMSD after a run does not depend on the order in which
    the mappings are handed to the functor: two runs from the same functor
    over the same mappings in different orders both fail, or both end with
    the same best RMSD. *)
Theorem visiting_order_irrelevant (f : MapRMSDFunctor) (maps maps' : list Mapping) :
  Permutation maps maps' ->
  option_map (fun run => getRMSD (fst run))
             (visit_each (call qtrfit rotate_coords) f maps)
  = option_map (fun run => getRMSD (fst run))
               (visit_each (call qtrfit rotate_coords) f maps').
Proof.
  intros Hperm. rewrite !visit_each_values.
  pose proof (values_of_perm (ref f) (test f) (minimize f) _ _ Hperm) as H.
  destruct (values_of _ _ _ maps) as [vs|] eqn:E,
           (values_of _ _ _ maps') as [vs'|]; try tauto.
  cbn. f_equal. apply running_min_perm; [exact H|].
  eapply values_of_pos. exact E.
Qed.

End Enumeration.

(** X5 at the two mappings between [AB_ref] and [AB_test]. *)
Lemma visiting_order_irrelevant_witness :
  option_map (fun run => getRMSD (fst run))
    (visit_each (call identity_fit matrix_apply)
       (MapRMSDFunctor_new AB_ref AB_test true)
       [[(0, 0); (1, 1)]; [(0, 1); (1, 0)]])
  = option_map (fun run => getRMSD (fst run))
      (visit_each (call identity_fit matrix_apply)
         (MapRMSDFunctor_new AB_ref AB_test true)
         [[(0, 1); (1, 0)]; [(0, 0); (1, 1)]]).
Proof.
  apply (visiting_order_irrelevant identity_fit matrix_apply).
  apply perm_swap.
Defined.

(** ** The loops of [main] *)

From Stdlib Require Strings.String Strings.Ascii.
Import String.StringSyntax Ascii.AsciiSyntax.
Delimit Scope string_scope with string.
Delimit Scope char_scope with char.

(** A molecule as read from a file: the title [GetTitle()] prints, which
    [processMol] does not touch, beside the graph. *)
Record MolRecord : Type := mkMolRecord {
  GetTitle : String.string;
  graph : OBMol
}.

(** One line of output, ["RMSD " << title << " " << rmsd]. *)
Record Line : Type := mkLine {
  line_title : String.string;
  line_rmsd : float
}.

Section Main.
Variable qtrfit : coords -> coords -> nat -> matrix3.
Variable rotate_coords : coords -> matrix3 -> nat -> coords.
(** [OBMol::Empty] is a library routine outside [obrms.cpp]; it is a
    parameter here. *)
Variable Empty : OBMol -> bool.

(** Lines 318-332, the loop over the test file for one matcher.  The
    stream is the list of the molecules still to be read; [Read] fails at
    its end.  The result is the lines printed and the molecules left in the
    stream; [None] is a failed assertion inside [computeRMSD]. *)
Fixpoint test_loop (firstOnly minimize : bool) (matcher : Matcher)
    (ifstest : list MolRecord) : option (list Line * list MolRecord) :=
  match ifstest with
  | [] => Some ([], [])
  | moltest :: ifstest =>
      if Empty (graph moltest) then Some ([], ifstest)
      else
        match computeRMSD qtrfit rotate_coords matcher
                          (processMol (graph moltest)) minimize with
        | None => None
        | Some rmsd =>
            let line := mkLine (GetTitle moltest) rmsd in
            if negb firstOnly then Some ([line], ifstest)
            else
              match test_loop firstOnly minimize matcher ifstest with
              | Some (lines, ifstest) => Some (line :: lines, ifstest)
              | None => None
              end
        end
  end.

(** Lines 313-333, the loop over the reference file. *)
Fixpoint ref_loop (firstOnly minimize : bool) (ifsref ifstest : list MolRecord)
  : option (list Line) :=
  match ifsref with
  | [] => Some []
  | molref :: ifsref =>
      let matcher := Matcher_new (processMol (graph molref)) in
      match test_loop firstOnly minimize matcher ifstest with
      | None => None
      | Some (lines, ifstest) =>
          match ref_loop firstOnly minimize ifsref ifstest with
          | Some more => Some (lines ++ more)
          | None => None
          end
      end
  end.

(** The line printed for a test molecule compared with a reference. *)
Definition line_of (minimize : bool) (molref moltest : MolRecord) (line : Line) : Prop :=
  line_title line = GetTitle moltest
  /\ compareOne qtrfit rotate_coords (graph molref) (graph moltest) minimize
     = Some (line_rmsd line).

Definition not_Empty (moltest : MolRecord) : bool := negb (Empty (graph moltest)).
End Main.

Section MainFacts.
Variable qtrfit : coords -> coords -> nat -> matrix3.
Variable rotate_coords : coords -> matrix3 -> nat -> coords.
Variable Empty : OBMol -> bool.

Lemma computeRMSD_total molref moltest min :
  exists v, computeRMSD qtrfit rotate_coords (Matcher_new molref) moltest min = Some v.
Proof.
  destruct (run_of_isomorphisms qtrfit rotate_coords molref moltest min)
    as (vs & _ & Hrun).
  unfold computeRMSD. rewrite Hrun. eauto.
Qed.

(** One pass of the inner loop: it consumes a prefix of the stream and
    prints one line for each molecule of a sublist of that prefix. *)
Lemma test_loop_spec firstOnly min molref ifstest :
  exists lines rest consumed reported,
    test_loop qtrfit rotate_coords Empty firstOnly min
              (Matcher_new (processMol (graph molref))) ifstest
    = Some (lines, rest)
    /\ ifstest = consumed ++ rest
    /\ sublist reported consumed
    /\ List.Forall2
         (fun t line => Empty (graph t) = false
                        /\ line_of qtrfit rotate_coords min molref t line)
         reported lines.
Proof.
  induction ifstest as [|t ts IH]; simpl.
  - exists [], [], [], []. repeat split; constructor.
  - destruct (Empty (graph t)) eqn:Et.
    + exists [], ts, [t], []. repeat split; [apply sublist_nil_l|constructor].
    + destruct (computeRMSD_total (processMol (graph molref))
                  (processMol (graph t)) min) as [v Hv].
      rewrite Hv.
      assert (Hl : line_of qtrfit rotate_coords min molref t (mkLine (GetTitle t) v))
        by (split; [reflexivity|exact Hv]).
      destruct firstOnly; simpl.
      * destruct IH as (lines & rest & consumed & reported & -> & -> & Hs & Hf).
        exists (mkLine (GetTitle t) v :: lines), rest, (t :: consumed), (t :: reported).
        repeat split; [now apply sublist_skip|now constructor].
      * exists [mkLine (GetTitle t) v], ts, [t], [t].
        repeat split; [reflexivity|now repeat constructor].
Qed.

Lemma ref_loop_total firstOnly min ifsref ifstest :
  exists lines,
    ref_loop qtrfit rotate_coords Empty firstOnly min ifsref ifstest = Some lines.
Proof.
  revert ifstest. induction ifsref as [|r rs IH]; intros ifstest; simpl; [eauto|].
  destruct (test_loop_spec firstOnly min r ifstest) as (lines & rest & _ & _ & -> & _).
  destruct (IH rest) as [more ->]. eauto.
Qed.

(** X6. The loops of [main] never fail an assertion.  The lines printed
    are, in order, the lines of a sublist of the molecules of the test
    file: no test molecule is reported twice or out of order, none that is
    [Empty()] is reported, and each line carries the title of its molecule
    and its RMSD from one molecule of the reference file, both
    normalised. *)
Theorem main_loop_reports (firstOnly min : bool) (ifsref ifstest : list MolRecord) :
  exists lines reported,
    ref_loop qtrfit rotate_coords Empty firstOnly min ifsref ifstest = Some lines
    /\ sublist reported ifstest
    /\ List.Forall2
         (fun t line =>
            Empty (graph t) = false
            /\ exists molref, In molref ifsref
                              /\ line_of qtrfit rotate_coords min molref t line)
         reported lines.
Proof.
  revert ifstest. induction ifsref as [|r rs IH]; intros ifstest; simpl.
  - exists [], []. repeat split; [apply sublist_nil_l|constructor].
  - destruct (test_loop_spec firstOnly min r ifstest)
      as (lines & rest & consumed & reported & -> & -> & Hs & Hf).
    destruct (IH rest) as (more & reported' & -> & Hs' & Hf').
    exists (lines ++ more), (reported ++ reported').
    repeat split; [now apply sublist_app|].
    apply Forall2_app.
    + eapply Forall2_impl; [exact Hf|]. cbn. intros t line [He Hl]. eauto.
    + eapply Forall2_impl; [exact Hf'|]. cbn.
      intros t line (He & r' & Hr' & Hl). eauto.
Qed.

End MainFacts.

Section MainModes.
Variable qtrfit : coords -> coords -> nat -> matrix3.
Variable rotate_coords : coords -> matrix3 -> nat -> coords.
Variable Empty : OBMol -> bool.

Lemma ref_loop_no_tests firstOnly min ifsref :
  ref_loop qtrfit rotate_coords Empty firstOnly min ifsref [] = Some [].
Proof. induction ifsref as [|r rs IH]; simpl; [reflexivity|now rewrite IH]. Qed.

(** With [firstOnly], the inner loop runs through a stretch of molecules
    that are not [Empty()] up to the next one that is. *)
Lemma test_loop_firstOnly min molref ts rest :
  List.Forall (fun t => Empty (graph t) = false) ts ->
  match rest with [] => True | e :: _ => Empty (graph e) = true end ->
  exists lines,
    test_loop qtrfit rotate_coords Empty true min
              (Matcher_new (processMol (graph molref))) (ts ++ rest)
    = Some (lines, tl rest)
    /\ List.Forall2 (line_of qtrfit rotate_coords min molref) ts lines.
Proof.
  intros Hts Hrest. induction Hts as [|t ts Ht _ IH]; simpl.
  - exists []. split; [|constructor].
    destruct rest as [|e rest]; [reflexivity|]. simpl. now rewrite Hrest.
  - rewrite Ht.
    destruct (computeRMSD_total qtrfit rotate_coords (processMol (graph molref))
                (processMol (graph t)) min) as [v Hv].
    rewrite Hv. simpl. destruct IH as (lines & -> & Hf).
    exists (mkLine (GetTitle t) v :: lines). split; [reflexivity|].
    constructor; [|exact Hf]. split; [reflexivity|exact Hv].
Qed.

(** X7. Without [firstOnly] the two files are read in step: every
    reference molecule takes the next test molecule, and the pair gives
    one line unless that test molecule is [Empty()]; molecules of the longer
    file beyond the length of the shorter are not compared. *)
Theorem pairwise_mode (min : bool) (ifsref ifstest : list MolRecord) :
  exists lines,
    ref_loop qtrfit rotate_coords Empty false min ifsref ifstest = Some lines
    /\ List.Forall2
         (fun pair line => line_of qtrfit rotate_coords min (fst pair) (snd pair) line)
         (List.filter (fun pair => not_Empty Empty (snd pair)) (combine ifsref ifstest))
         lines.
Proof.
  revert ifstest. induction ifsref as [|r rs IH]; intros [|t ts].
  - exists []. split; [reflexivity|constructor].
  - exists []. split; [reflexivity|constructor].
  - exists []. split; [apply ref_loop_no_tests|constructor].
  - destruct (IH ts) as (more & Hmore & Hf).
    cbn [ref_loop test_loop combine List.filter snd].
    change (not_Empty Empty t) with (negb (Empty (graph t))).
    destruct (Empty (graph t)) eqn:Et; cbn [negb].
    + rewrite Hmore. exists more. split; [reflexivity|exact Hf].
    + destruct (computeRMSD_total qtrfit rotate_coords (processMol (graph r))
                  (processMol (graph t)) min) as [v Hv].
      rewrite Hv. cbn [negb]. rewrite Hmore.
      exists (mkLine (GetTitle t) v :: more). split; [reflexivity|].
      constructor; [|exact Hf]. split; [reflexivity|exact Hv].
Qed.

(** X8. With [firstOnly], when the reference file is not empty and no
    molecule of the test file is [Empty()], every test molecule is compared
    with the first reference molecule, in order, and the other reference
    molecules give no line. *)
Theorem firstOnly_mode (min : bool) (molref : MolRecord)
    (ifsref ifstest : list MolRecord) :
  List.Forall (fun t => Empty (graph t) = false) ifstest ->
  exists lines,
    ref_loop qtrfit rotate_coords Empty true min (molref :: ifsref) ifstest
    = Some lines
    /\ List.Forall2 (line_of qtrfit rotate_coords min molref) ifstest lines.
Proof.
  intros Hts.
  destruct (test_loop_firstOnly min molref ifstest [] Hts I) as (lines & Hl & Hf).
  rewrite app_nil_r in Hl. cbn [ref_loop]. rewrite Hl. cbn [tl].
  rewrite ref_loop_no_tests, app_nil_r. eauto.
Qed.

(** X9. With [firstOnly], a test molecule that is [Empty()] ends the use
    of the current reference molecule: the test molecules before it are
    compared with that reference, the empty one gives no line, and the
    test molecules after it are handled as the rest of the reference file
    handles them, not compared with the first reference molecule. *)
Theorem firstOnly_after_Empty (min : bool) (molref empty : MolRecord)
    (ifsref before after : list MolRecord) :
  List.Forall (fun t => Empty (graph t) = false) before ->
  Empty (graph empty) = true ->
  exists lines more,
    ref_loop qtrfit rotate_coords Empty true min (molref :: ifsref)
             (before ++ empty :: after)
    = Some (lines ++ more)
    /\ List.Forall2 (line_of qtrfit rotate_coords min molref) before lines
    /\ ref_loop qtrfit rotate_coords Empty true min ifsref after = Some more.
Proof.
  intros Hts He.
  destruct (test_loop_firstOnly min molref before (empty :: after) Hts He)
    as (lines & Hl & Hf).
  destruct (ref_loop_total qtrfit rotate_coords Empty true min ifsref after)
    as [more Hmore].
  exists lines, more. cbn [ref_loop]. rewrite Hl. cbn [tl]. now rewrite Hmore.
Qed.

End MainModes.

(** A molecule is empty when it has no atom; three records for the
    examples: two molecules with atoms and one without. *)
Definition no_atoms (mol : OBMol) : bool := NumAtoms mol =? 0.

Definition record_ref : MolRecord := mkMolRecord "ref"%string AB_ref.

Definition record_test : MolRecord := mkMolRecord "pose"%string AB_test.

Definition record_empty : MolRecord := mkMolRecord "none"%string empty_mol.

(** X8 at a reference file of two molecules and a test file of two. *)
Lemma firstOnly_mode_witness :
  exists lines,
    ref_loop identity_fit matrix_apply no_atoms true false
             [record_ref; record_test] [record_test; record_ref]
    = Some lines
    /\ List.Forall2 (line_of identity_fit matrix_apply false record_ref)
                    [record_test; record_ref] lines.
Proof.
  apply (firstOnly_mode identity_fit matrix_apply no_atoms false record_ref
           [record_test] [record_test; record_ref]).
  repeat constructor.
Defined.

(** X9 at a test file with an empty molecule between two others. *)
Lemma firstOnly_after_Empty_witness :
  exists lines more,
    ref_loop identity_fit matrix_apply no_atoms true false
             [record_ref; record_test] ([record_test] ++ record_empty :: [record_ref])
    = Some (lines ++ more)
    /\ List.Forall2 (line_of identity_fit matrix_apply false record_ref)
                    [record_test] lines
    /\ ref_loop identity_fit matrix_apply no_atoms true false
                [record_test] [record_ref] = Some more.
Proof.
  apply (firstOnly_after_Empty identity_fit matrix_apply no_atoms false
           record_ref record_empty [record_test] [record_test] [record_ref]).
  - repeat constructor.
  - reflexivity.
Defined.

(** ** The input streams *)

(** [std::string::rfind(pattern)] with the default start: the position of
    the last occurrence of the pattern, [None] for [npos]. *)
Fixpoint rfind_from (pattern s : String.string) (pos : nat) : option nat :=
  match s with
  | String.EmptyString =>
      if String.prefix pattern String.EmptyString then Some pos else None
  | String.String _ s' =>
      match rfind_from pattern s' (S pos) with
      | Some p => Some p
      | None => if String.prefix pattern s then Some pos else None
      end
  end.

Definition rfind (s pattern : String.string) : option nat := rfind_from pattern s 0.

(** The filters of a [filtering_stream]. *)
Variant Filter : Type := gzip_decompressor.

(** Lines 283-288 and 299-304: the filters pushed on the stream of a file
    before the file itself, [if (file.rfind(".gz") != npos)
    push(gzip_decompressor())]. *)
Definition filters_of (file : String.string) : list Filter :=
  match rfind file ".gz"%string with
  | Some _ => [gzip_decompressor]
  | None => []
  end.

(** The pattern occurs in the string at the given position. *)
Definition occurs_at (pattern s : String.string) (i : nat) : Prop :=
  exists pre post,
    s = String.append pre (String.append pattern post) /\ String.length pre = i.

Module StreamFacts.

Lemma prefix_append pattern s :
  String.prefix pattern s = true <-> exists post, s = String.append pattern post.
Proof.
  revert s. induction pattern as [|a p IH]; intros s; simpl.
  - destruct s; split; eauto.
  - destruct s as [|b s]; simpl.
    + split; [discriminate|]. intros [post H]. discriminate H.
    + destruct (Ascii.ascii_dec a b) as [->|Hne].
      * rewrite IH. split; intros [post H]; exists post; congruence.
      * split; [discriminate|]. intros [post H]. congruence.
Qed.

Lemma occurs_at_0 pattern s :
  occurs_at pattern s 0 <-> String.prefix pattern s = true.
Proof.
  rewrite prefix_append. unfold occurs_at. split.
  - intros (pre & post & -> & Hl). destruct pre; [|discriminate]. eauto.
  - intros [post ->]. exists String.EmptyString, post. auto.
Qed.

Lemma occurs_at_S pattern c s i :
  occurs_at pattern (String.String c s) (S i) <-> occurs_at pattern s i.
Proof.
  unfold occurs_at. split.
  - intros (pre & post & E & Hl). destruct pre as [|c' pre]; [discriminate|].
    simpl in *. exists pre, post. split; congruence.
  - intros (pre & post & -> & Hl). exists (String.String c pre), post.
    simpl. auto.
Qed.

Lemma occurs_at_empty pattern i :
  occurs_at pattern String.EmptyString i
  <-> i = 0 /\ String.prefix pattern String.EmptyString = true.
Proof.
  split.
  - intros (pre & post & E & Hl). destruct pre; [|discriminate].
    simpl in Hl. subst i. split; [reflexivity|].
    apply occurs_at_0. exists String.EmptyString, post. auto.
  - intros [-> H]. now apply occurs_at_0.
Qed.

Lemma rfind_from_None pattern s pos :
  rfind_from pattern s pos = None -> forall j, ~ occurs_at pattern s j.
Proof.
  revert pos. induction s as [|c s IH]; intros pos; cbn [rfind_from].
  - destruct (String.prefix pattern String.EmptyString) eqn:E; [discriminate|].
    intros _ j Hj. apply occurs_at_empty in Hj as [_ Hj]. congruence.
  - destruct (rfind_from pattern s (S pos)) as [q|] eqn:Eq; [discriminate|].
    destruct (String.prefix pattern (String.String c s)) eqn:E; [discriminate|].
    intros _ [|j] Hj.
    + apply occurs_at_0 in Hj. congruence.
    + apply occurs_at_S in Hj. exact (IH _ Eq j Hj).
Qed.

(** [rfind_from] finds the last occurrence. *)
Lemma rfind_from_Some pattern s pos p :
  rfind_from pattern s pos = Some p ->
  exists i, p = pos + i /\ occurs_at pattern s i
            /\ forall j, occurs_at pattern s j -> j <= i.
Proof.
  revert pos p. induction s as [|c s IH]; intros pos p; cbn [rfind_from].
  - destruct (String.prefix pattern String.EmptyString) eqn:E; [|discriminate].
    intros [= <-]. exists 0. repeat split; [lia|now apply occurs_at_empty|].
    intros j Hj. apply occurs_at_empty in Hj. lia.
  - destruct (rfind_from pattern s (S pos)) as [q|] eqn:Eq.
    + apply IH in Eq as (i & -> & Hi & Hmax).
      intros [= <-]. exists (S i). repeat split; [lia|now apply occurs_at_S|].
      intros [|j] Hj; [lia|]. apply occurs_at_S, Hmax in Hj. lia.
    + destruct (String.prefix pattern (String.String c s)) eqn:E; [|discriminate].
      intros [= <-]. exists 0. repeat split; [lia|now apply occurs_at_0|].
      intros [|j] Hj; [lia|]. apply occurs_at_S in Hj.
      now apply (rfind_from_None _ _ _ Eq) in Hj.
Qed.

End StreamFacts.

(** X10. A file is read through the gzip decompressor exactly when its
    name contains [.gz] somewhere, not only as its extension; [rfind]
    gives the position of the last occurrence, and only whether there is
    one is used. *)
Theorem gzip_by_substring (file : String.string) :
  (filters_of file = [gzip_decompressor]
   <-> exists pre post,
         file = String.append pre (String.append ".gz"%string post))
  /\ (filters_of file = []
      <-> forall pre post,
            file <> String.append pre (String.append ".gz"%string post))
  /\ (forall p, rfind file ".gz"%string = Some p ->
         occurs_at ".gz"%string file p
         /\ forall j, occurs_at ".gz"%string file j -> j <= p).
Proof.
  unfold filters_of, rfind.
  destruct (rfind_from ".gz"%string file 0) as [p|] eqn:E.
  - apply StreamFacts.rfind_from_Some in E as (i & -> & Hi & Hmax).
    pose proof Hi as (pre & post & Hfile & _).
    split; [|split].
    + split; [eauto|reflexivity].
    + split; [discriminate|]. intros H. exfalso. exact (H pre post Hfile).
    + intros q [= <-]. split; [exact Hi|exact Hmax].
  - pose proof (StreamFacts.rfind_from_None _ _ _ E) as Hnone.
    assert (Hno : forall pre post,
               file <> String.append pre (String.append ".gz"%string post)).
    { intros pre post Hfile. apply (Hnone (String.length pre)).
      exists pre, post. auto. }
    split; [|split].
    + split; [discriminate|]. intros (pre & post & Hfile).
      exfalso. exact (Hno pre post Hfile).
    + split; [intros _; exact Hno|reflexivity].
    + discriminate.
Qed.

(** ** Bonds and atoms after normalisation *)

(** Every bond joins two atoms of the molecule, and the atoms are distinct
    objects. *)
Definition bonds_joined (mol : OBMol) : Prop :=
  forall b, In b (bonds mol) ->
    In (GetBeginAtomId b) (map GetId (atoms mol))
    /\ In (GetEndAtomId b) (map GetId (atoms mol)).

Definition distinct_atoms (mol : OBMol) : Prop :=
  List.NoDup (map GetId (atoms mol)).

(** A carbon atom bonded to a hydrogen and to another carbon. *)
Definition CCH : OBMol :=
  mol_of [carbon 0 0 0 0; carbon 1 1.5 0 0; atom_at 2 1 (-1) 0 0]
         [single_bond 0 1; single_bond 2 0].

Module WellFormedFacts.
Import NormalFacts.

Lemma touches_false ids b :
  touches ids b = false ->
  ~ In (GetBeginAtomId b) ids /\ ~ In (GetEndAtomId b) ids.
Proof.
  unfold touches. rewrite orb_false_iff. intros [Hb He].
  split; intros Hin.
  - assert (existsb (Nat.eqb (GetBeginAtomId b)) ids = true)
      by (apply existsb_exists; exists (GetBeginAtomId b); split;
          [exact Hin|apply Nat.eqb_refl]).
    congruence.
  - assert (existsb (Nat.eqb (GetEndAtomId b)) ids = true)
      by (apply existsb_exists; exists (GetEndAtomId b); split;
          [exact Hin|apply Nat.eqb_refl]).
    congruence.
Qed.

(** An atom identity of the molecule that is not the identity of one of
    its hydrogens is the identity of an atom that stays. *)
Lemma id_stays mol x :
  In x (map GetId (atoms mol)) -> ~ In x (hydrogen_ids mol) ->
  In x (map GetId (atoms (processMol mol))).
Proof.
  rewrite processMol_unfold. cbn [atoms]. unfold hydrogen_ids.
  rewrite !in_map_iff. intros (a & <- & Ha) Hno.
  exists (atom_body a). split; [reflexivity|].
  apply in_map, filter_In. split; [exact Ha|].
  destruct (IsHydrogen a) eqn:E; [|reflexivity].
  exfalso. apply Hno. exists a. split; [reflexivity|]. apply filter_In. auto.
Qed.

Lemma ids_after mol :
  map GetId (atoms (processMol mol))
  = map GetId (List.filter (fun a => negb (IsHydrogen a)) (atoms mol)).
Proof. rewrite processMol_unfold. cbn [atoms]. now rewrite map_map. Qed.

Lemma NoDup_map_filter {A B} (f : A -> B) (p : A -> bool) l :
  List.NoDup (map f l) -> List.NoDup (map f (List.filter p l)).
Proof.
  induction l as [|a l IH]; simpl; [auto|].
  intros H. inversion H as [|? ? Hni Hnd]; subst.
  destruct (p a); simpl; [|auto].
  constructor; [|auto]. intros Hin. apply Hni.
  apply in_map_iff in Hin as (a' & E & Ha'). apply filter_In in Ha' as [Ha' _].
  apply in_map_iff. eauto.
Qed.

End WellFormedFacts.

(** X11. [processMol] keeps a molecule well formed: if its atoms are
    distinct objects and every bond joins two of its atoms, the same holds
    afterwards, so that no bond is left with an end atom that was removed;
    and the walk never adds an atom or a bond. *)
Theorem processMol_keeps_bonds_joined (mol : OBMol) :
  distinct_atoms mol -> bonds_joined mol ->
  distinct_atoms (processMol mol) /\ bonds_joined (processMol mol)
  /\ NumAtoms (processMol mol) <= NumAtoms mol
  /\ length (bonds (processMol mol)) <= length (bonds mol).
Proof.
  intros Hd Hj. split; [|split; [|split]].
  - unfold distinct_atoms. rewrite WellFormedFacts.ids_after.
    now apply WellFormedFacts.NoDup_map_filter.
  - intros b Hb. rewrite processMol_unfold in Hb. cbn [bonds] in Hb.
    apply in_map_iff in Hb as (b0 & <- & Hb0).
    apply filter_In in Hb0 as [Hb0 Ht]. apply negb_true_iff in Ht.
    apply WellFormedFacts.touches_false in Ht as [Hbn Hen].
    destruct (Hj b0 Hb0) as [Hbi Hei].
    split; apply WellFormedFacts.id_stays; assumption.
  - unfold NumAtoms. rewrite processMol_unfold. cbn [atoms].
    rewrite length_map. apply filter_length_le.
  - rewrite processMol_unfold. cbn [bonds].
    rewrite length_map. apply filter_length_le.
Qed.

(** X11 at a molecule with a hydrogen. *)
Lemma processMol_keeps_bonds_joined_witness :
  distinct_atoms (processMol CCH) /\ bonds_joined (processMol CCH)
  /\ NumAtoms (processMol CCH) <= NumAtoms CCH
  /\ length (bonds (processMol CCH)) <= length (bonds CCH).
Proof.
  apply (processMol_keeps_bonds_joined CCH).
  - repeat constructor; simpl; intuition discriminate.
  - intros b [<-|[<-|[]]]; simpl; auto.
Defined.

(** ** Runs in two parts *)

Section SplitRuns.
Variable qtrfit : coords -> coords -> nat -> matrix3.
Variable rotate_coords : coords -> matrix3 -> nat -> coords.

(** X12. A run of the functor over a list of mappings is the run over a
    first part of the list followed by the run over the rest from the
    functor the first run left (the functor never stops a run): the best
    RMSD can be accumulated in parts. *)
Theorem visit_each_app (f : MapRMSDFunctor) (maps1 maps2 : list Mapping) :
  visit_each (call qtrfit rotate_coords) f (maps1 ++ maps2)
  = match visit_each (call qtrfit rotate_coords) f maps1 with
    | None => None
    | Some (f1, calls1) =>
        match visit_each (call qtrfit rotate_coords) f1 maps2 with
        | None => None
        | Some (f2, calls2) => Some (f2, calls1 ++ calls2)
        end
    end.
Proof.
  revert f. induction maps1 as [|m maps1 IH]; intros f; simpl.
  - now destruct (visit_each _ f maps2) as [[f2 calls2]|].
  - unfold call at 1 3.
    destruct (mapping_rmsd _ _ _ _ _ m) as [v|]; [|reflexivity].
    rewrite IH.
    destruct (visit_each _ _ maps1) as [[f1 calls1]|]; [|reflexivity].
    now destruct (visit_each _ f1 maps2) as [[f2 calls2]|].
Qed.

End SplitRuns.

(** X3 at an atom with a coordinate that is not a number, with the sum of
    squared differences for the distance. *)
Lemma sorter_nan_unordered_witness :
  sorter_equiv dist_sq (AtomDistanceSorter_new (carbon 0 0 0 0))
               (carbon 1 nan 0 0) (carbon 2 1 0 0).
Proof.
  apply (sorter_nan_unordered dist_sq (carbon 0 0 0 0) (carbon 1 nan 0 0)).
  reflexivity.
Defined.

(** * Minimize against no minimize *)


(** The value is positive infinity or not a number. *)
Definition sf_unbounded (s : spec_float) : bool :=
  match s with
  | S754_infinity false | S754_nan => true
  | _ => false
  end.

Module LebFacts.
Import DoubleFacts OrderFacts.







(** *** Values that are infinite or not numbers *)

Lemma unbounded_pos s : sf_unbounded s = true -> sf_pos s = true.
Proof. destruct s as [[]|[]| |[] m e]; simpl; congruence. Qed.







End LebFacts.

Section MinimizeFacts.
Import DoubleFacts RmsFacts LebFacts.
Variable qtrfit : coords -> coords -> nat -> matrix3.
Variable rotate_coords : coords -> matrix3 -> nat -> coords.








End MinimizeFacts.




